(** * clash-read: rule matching, configuration reload, SOCKS address
      serialisation and the log observable

    A shallow embedding of the Go sources

    - [tunnel/tunnel.go]        ([Tunnel.match], [Tunnel.UpdateConfig]),
    - [adapters/util.go]        ([ShadowSocks.Generator], [NewShadowSocks],
                                 [parseURL], [serializesSocksAddr]),
    - [rules/geoip.go]          ([GEOIP.IsMatch]),
    - [observable/observable.go] ([Subscribe], [UnSubscribe], [close]),

    together with the properties the specification states about them.

    Conventions.  A Go [int] is a [Z]; a byte slice is a [list Z] whose
    elements are produced through [uint8]; a Go [string] is a [string] (a
    sequence of bytes, so [String.length] is Go's [len]); a Go map is a
    [gmap]; a nil pointer or nil interface is [None].  A function that can
    panic returns an [Outcome]; a function with several results returns a
    tuple; a send on the log channel appends to the list of emitted records.
    Library code the sources call ([net.Dial], [url.Parse],
    [core.PickCipher], the MMDB reader) and the files of the repository that
    are not part of the sources at hand are section variables. *)

From Stdlib Require Import ZArith String Ascii List Lia.
From stdpp Require Import base option list gmap strings.

Set Warnings "-register-all".

(** String concatenation computes under [simpl]. *)
Local Arguments String.append !_ _ / : simpl nomatch.

Local Open Scope string_scope.
Local Open Scope list_scope.
Local Open Scope Z_scope.

(** ** Panics *)

(** A Go call either returns or panics (nil dereference, index out of
    range). *)
Inductive Outcome (A : Type) : Type :=
| Returned (a : A)
| Panicked.
Arguments Returned {A} a.
Arguments Panicked {A}.

Definition obind {A B} (o : Outcome A) (k : A → Outcome B) : Outcome B :=
  match o with
  | Returned a => k a
  | Panicked => Panicked
  end.

Notation "'do' x <~ o ; k" := (obind o (fun x => k))
  (at level 10, x pattern, o at level 100, k at level 200).

(** [s[i]] on a slice: panics when [i] is out of range. *)
Definition index {A} (s : list A) (i : nat) : Outcome A :=
  match s !! i with
  | Some a => Returned a
  | None => Panicked
  end.

(** ** Go library functions on strings and bytes *)

Module strings.

(** [strings.Split(s, sep)] for a separator of one byte: the pieces of [s]
    between the separators; always at least one piece. *)
Fixpoint Split (s : string) (sep : ascii) : list string :=
  match s with
  | EmptyString => [EmptyString]
  | String c s' =>
    if Ascii.eqb c sep then EmptyString :: Split s' sep
    else match Split s' sep with
         | h :: t => String c h :: t
         | [] => [String c EmptyString]
         end
  end.

(** [strings.HasSuffix] and [strings.Contains] *)
Definition HasSuffix (s suffix : string) : bool :=
  String.prefix (String.rev suffix) (String.rev s).

Definition Contains (s substr : string) : bool :=
  match substr with
  | EmptyString => true
  | _ => bool_decide (is_Some (String.index 0 substr s))
  end.

(** [strings.Trim(s, " ")] *)
Fixpoint TrimLeft (s : string) : string :=
  match s with
  | String c s' => if Ascii.eqb c " "%char then TrimLeft s' else s
  | EmptyString => EmptyString
  end.

Definition Trim (s : string) : string :=
  String.rev (TrimLeft (String.rev (TrimLeft s))).

End strings.

Module strconv.

Definition digit (c : ascii) : option Z :=
  let n := Z.of_N (N_of_ascii c) in
  if (48 <=? n) && (n <=? 57) then Some (n - 48) else None.

(** The value of a run of decimal digits, [None] on any other byte. *)
Fixpoint digits (acc : Z) (s : string) : option Z :=
  match s with
  | EmptyString => Some acc
  | String c s' =>
    match digit c with
    | Some d => digits (10 * acc + d) s'
    | None => None
    end
  end.

Definition maxInt : Z := 2 ^ 63 - 1.
Definition minInt : Z := - 2 ^ 63.
Definition maxUint64 : Z := 2 ^ 64 - 1.

Definition syntaxError : option string := Some "invalid syntax".
Definition rangeError : option string := Some "value out of range".

(** The loop of [strconv.ParseUint(s, 10, 0)] from the number [n] read so
    far: a byte that is no digit is a syntax error with value 0; once the
    number leaves 64 bits the loop stops with the largest value and a
    range error, without looking at the bytes that follow. *)
Fixpoint ParseUint_loop (n : Z) (s : string) : Z * option string :=
  match s with
  | EmptyString => (n, None)
  | String c s' =>
    match digit c with
    | None => (0, syntaxError)
    | Some d =>
      if maxUint64 / 10 + 1 <=? n then (maxUint64, rangeError)
      else
        let n1 := n * 10 + d in
        if maxUint64 <? n1 then (maxUint64, rangeError)
        else ParseUint_loop n1 s'
    end
  end.

Definition ParseUint (s : string) : Z * option string :=
  match s with
  | EmptyString => (0, syntaxError)
  | _ => ParseUint_loop 0 s
  end.

(** [strconv.ParseInt(s, 10, 0)]: one leading sign is taken off; a range
    error of [ParseUint] goes on to the bounds check, which then gives the
    bound of [int]. *)
Definition ParseInt (s : string) : Z * option string :=
  match s with
  | EmptyString => (0, syntaxError)
  | String c s' =>
    let '(neg, body) :=
      if Ascii.eqb c "+" then (false, s')
      else if Ascii.eqb c "-" then (true, s')
      else (false, s) in
    let '(un, err) := ParseUint body in
    if bool_decide (err = syntaxError) then (0, err)
    else
      let cutoff := 2 ^ 63 in
      if negb neg && (cutoff <=? un) then (cutoff - 1, rangeError)
      else if neg && (cutoff <? un) then (- cutoff, rangeError)
      else (if neg then - un else un, None)
  end.

(** [strconv.Atoi] where [int] has 64 bits.  The second component is the
    error ([None] is nil).  A string of 1 to 18 bytes takes the fast path:
    an optional sign, then digits only, which cannot overflow; any other
    string goes through [ParseInt]. *)
Definition Atoi (s : string) : Z * option string :=
  let sLen := String.length s in
  if (0 <? sLen)%nat && (sLen <? 19)%nat then
    match s with
    | EmptyString => (0, syntaxError)
    | String c s' =>
      let signed := Ascii.eqb c "-" || Ascii.eqb c "+" in
      let body := if signed then s' else s in
      if signed && (String.length body <? 1)%nat then (0, syntaxError)
      else
        match digits 0 body with
        | None => (0, syntaxError)
        | Some n => (if Ascii.eqb c "-" then - n else n, None)
        end
    end
  else ParseInt s.

End strconv.

(** [uint8(x)] *)
Definition uint8 (x : Z) : Z := x mod 256.

(** [[]byte(s)] *)
Definition bytes_of_string (s : string) : list Z :=
  map (fun c => Z.of_N (N_of_ascii c)) (list_ascii_of_string s).

(** [string(b)] *)
Definition string_of_bytes (b : list Z) : string :=
  string_of_list_ascii (map (fun z => ascii_of_N (Z.to_N z)) b).

Module net.

(** [net.IP] is a byte slice of length 4 or 16. *)
Definition IP := list Z.

Definition IPv4len : nat := 4.
Definition IPv6len : nat := 16.

Definition v4InV6Prefix : list Z := [0; 0; 0; 0; 0; 0; 0; 0; 0; 0; 255; 255].

Definition isZeros (p : list Z) : bool := forallb (Z.eqb 0) p.

(** [ip.To4()]: the 4-byte form, or nil when [ip] is not an IPv4 address. *)
Definition To4 (ip : IP) : option IP :=
  if Nat.eqb (length ip) IPv4len then Some ip
  else if Nat.eqb (length ip) IPv6len
          && isZeros (take 10 ip)
          && bool_decide (ip !! 10%nat = Some 255)
          && bool_decide (ip !! 11%nat = Some 255)
       then Some (take 4 (drop 12 ip))
       else None.

(** [ip.To16()]: the 16-byte form, or nil when the length is wrong. *)
Definition To16 (ip : IP) : option IP :=
  if Nat.eqb (length ip) IPv4len then Some (v4InV6Prefix ++ ip)
  else if Nat.eqb (length ip) IPv6len then Some ip
  else None.

(** [ip.Equal(x)]: equal as addresses, an IPv4 address and its 16-byte
    form being the same. *)
Definition Equal (ip x : IP) : bool :=
  match To16 ip, To16 x with
  | Some a, Some b => bool_decide (a = b)
  | _, _ => false
  end.

End net.

(** ** Package [constant]: addresses *)

Module socks.
(** SOCKS address types, RFC 1928 section 5. *)
Definition AtypIPv4 : Z := 1.
Definition AtypDomainName : Z := 3.
Definition AtypIPv6 : Z := 4.
End socks.

(** [C.Addr]; [IP] is a [*net.IP], nil until the host is resolved. *)
Record Addr := mkAddr {
  NetWork : Z;
  AddrType : Z;
  Host : string;
  IP : option net.IP;
  Port : string
}.

(** ** Package [adapters]: the SOCKS address header *)

(** A nil slice joins as no bytes. *)
Definition slice_or_nil (o : option (list Z)) : list Z := default [] o.

(** [serializesSocksAddr]: [addr.IP.To4()] and [addr.IP.To16()] dereference
    [addr.IP] and panic when it is nil; an address type outside the three
    cases leaves [buf] nil, so the result is empty. *)
Definition serializesSocksAddr (addr : Addr) : Outcome (list Z) :=
  let aType := uint8 (AddrType addr) in
  let '(p, _) := strconv.Atoi (Port addr) in
  let port := [uint8 (Z.shiftr p 8); uint8 (Z.land p 255)] in
  if AddrType addr =? socks.AtypDomainName then
    let len := uint8 (Z.of_nat (String.length (Host addr))) in
    let host := bytes_of_string (Host addr) in
    Returned ([aType; len] ++ host ++ port)
  else if AddrType addr =? socks.AtypIPv4 then
    match IP addr with
    | None => Panicked
    | Some ip =>
      let host := slice_or_nil (net.To4 ip) in
      Returned ([aType] ++ host ++ port)
    end
  else if AddrType addr =? socks.AtypIPv6 then
    match IP addr with
    | None => Panicked
    | Some ip =>
      let host := slice_or_nil (net.To16 ip) in
      Returned ([aType] ++ host ++ port)
    end
  else Returned [].

(** The destination a header denotes. *)
Inductive Destination :=
| DstIPv4 (ip : net.IP)
| DstDomain (host : string)
| DstIPv6 (ip : net.IP).

(** The reader of the header, written from the framing table of the
    specification (section 6.2): the ATYP byte, for a domain one length
    byte, the raw address bytes (4, LEN or 16 of them) and the port as two
    bytes, most significant first.  It returns the destination, the port
    and the bytes that follow the header. *)
Definition decodeSocksAddr (bs : list Z) : option (Destination * Z * list Z) :=
  let port_of (rest : list Z) (d : Destination) :=
    match rest with
    | hi :: lo :: rest' => Some (d, hi * 256 + lo, rest')
    | _ => None
    end in
  match bs with
  | 1 :: rest =>
    if (length rest <? 4)%nat then None
    else port_of (drop 4 rest) (DstIPv4 (take 4 rest))
  | 3 :: len :: rest =>
    let n := Z.to_nat len in
    if (length rest <? n)%nat then None
    else port_of (drop n rest) (DstDomain (string_of_bytes (take n rest)))
  | 4 :: rest =>
    if (length rest <? 16)%nat then None
    else port_of (drop 16 rest) (DstIPv6 (take 16 rest))
  | _ => None
  end.

(** ** Package [constant]: rules and log levels *)

Inductive RuleType := DomainSuffix | DomainKeyword | GEOIP | IPCIDR | FINAL.

(** The interface [C.Rule].  [IsMatch] may panic, see [GEOIP_IsMatch]. *)
Record Rule := mkRule {
  Rule_RuleType : RuleType;
  IsMatch : Addr → Outcome bool;
  Adapter : string;
  Payload : string
}.

Inductive LogLevel := ERROR | WARNING | INFO | DEBUG.

(** Modelled from the spec: [tunnel/log.go] is not among the sources; a
    record carries its level and its message, the message being the
    format with its arguments filled in. *)
Record Log := newLog {
  LogType : LogLevel;
  LogPayload : string
}.

(** The text [s] contains [sub]. *)
Definition Contains (s sub : string) : Prop :=
  ∃ pre post, s = pre +:+ sub +:+ post.

Lemma append_assoc (a b c : string) : (a +:+ b) +:+ c = a +:+ (b +:+ c).
Proof. induction a as [| x a IH]; simpl; [done | by rewrite IH]. Qed.

(** ** The INI file, read by [C.GetConfig] *)

Record Key := mkKey {
  Name : string;
  Value : string
}.

(** The three sections [UpdateConfig] reads, each with its keys in file
    order. *)
Record Config := mkConfig {
  Section_Proxy : list Key;
  Section_Rule : list Key;
  Section_ProxyGroup : list Key
}.

(** [url.URL], as far as [parseURL] reads it. *)
Record Userinfo := mkUserinfo {
  Username : string;
  Password : string
}.

Record URL := mkURL {
  URL_Host : string;
  URL_User : option Userinfo
}.

(** [geoip2.Country], as far as [GEOIP.IsMatch] reads it:
    [record.Country.ISOCode]. *)
Record Country := mkCountry {
  ISOCode : string
}.

(** [int64(x)]: wrap-around into 64 bits, two's complement. *)
Definition int64 (x : Z) : Z := (x + 2 ^ 63) mod 2 ^ 64 - 2 ^ 63.

Definition time_Second : Z := 1000000000.

Section Router.

(** *** Library code and files outside the sources at hand *)

(** [core.Cipher] and [net.Conn] *)
Variable Cipher : Type.
Variable Conn : Type.

(** [mmdb.Country(ip)]: a pointer to a record (nil is [None]) and an
    error. *)
Variable mmdb_Country : list Z → option Country * option string.

(** [addr.String()] and [ruleType.String()] of package [constant] *)
Variable Addr_String : Addr → string.
Variable RuleType_String : RuleType → string.

(** [url.Parse] *)
Variable url_Parse : string → URL + string.

(** [core.PickCipher(name, nil, password)] *)
Variable PickCipher : string → string → Cipher + string.

(** [net.Dial("tcp", server)], [cipher.StreamConn(c)] and [c.Write(b)] *)
Variable net_Dial : string → Conn + string.
Variable StreamConn : Cipher → Conn → Conn.
Variable Conn_Write : Conn → list Z → Z * option string.

(** [trimArr] of [tunnel/utils.go] *)
Variable trimArr : list string → list string.

(** The rule constructors of package [rules] other than [NewGEOIP] *)
Variable NewDomainSuffix : string → string → Rule.
Variable NewDomainKeyword : string → string → Rule.
Variable NewIPCIDR : string → string → Rule.
Variable NewFinal : string → Rule.

(** ** Package [rules]: GEOIP *)

Record GEOIP_rule := mkGEOIP {
  country : string;
  adapter : string
}.

(** [netip.AddrFromSlice]: fails unless the slice has 4 or 16 bytes. *)
Definition AddrFromSlice (slice : list Z) : option (list Z) :=
  if Nat.eqb (length slice) 4 || Nat.eqb (length slice) 16
  then Some slice else None.

(** [GEOIP.IsMatch]: the error of the lookup is dropped and the record is
    dereferenced whatever it was. *)
Definition GEOIP_IsMatch (g : GEOIP_rule) (addr : Addr) : Outcome bool :=
  match IP addr with
  | None => Returned false
  | Some slice =>
    match AddrFromSlice slice with
    | None => Returned false
    | Some ip =>
      let '(record, _) := mmdb_Country ip in
      match record with
      | None => Panicked
      | Some r => Returned (String.eqb (ISOCode r) (country g))
      end
    end
  end.

(** [NewGEOIP], seen through the interface [C.Rule]. *)
Definition NewGEOIP (code name : string) : Rule :=
  let g := {| country := code; adapter := name |} in
  {| Rule_RuleType := GEOIP;
     IsMatch := GEOIP_IsMatch g;
     Adapter := adapter g;
     Payload := country g |}.

(** ** Package [adapters]: proxies *)

(** The implementations of [C.Proxy].  [URLTest] is modelled from the
    spec ([adapters/urltest.go] is not among the sources): a group has a
    name, its ordered members, a probe URL and a probe interval. *)
Inductive Proxy :=
| Direct
| Reject
| ShadowSocks (server name : string) (cipher : Cipher)
| URLTest (name : string) (proxys : list Proxy) (rawURL : string) (delay : Z).

(** [NewURLTest] of [adapters/urltest.go] *)
Variable NewURLTest : string → list Proxy → string → Z → Proxy + string.

Definition isURLTest (p : Proxy) : bool :=
  match p with
  | URLTest _ _ _ _ => true
  | _ => false
  end.

(** [TrafficTrack] wraps a connection; [ShadowsocksAdapter] holds one. *)
Record TrafficTrack := NewTrafficTrack {
  TrafficTrack_Conn : Conn
}.

Record ShadowsocksAdapter := mkShadowsocksAdapter {
  conn : TrafficTrack
}.

(** [ShadowSocks.Generator]: both results, the adapter (nil is [None]) and
    the error. *)
Definition ShadowSocks_Generator (server : string) (cipher : Cipher) (addr : Addr)
  : Outcome (option ShadowsocksAdapter * option string) :=
  match net_Dial server with
  | inr _ => Returned (None, Some (server +:+ " connect error"))
  | inl c =>
    let c := StreamConn cipher c in
    do b <~ serializesSocksAddr addr;
    let '(_, err) := Conn_Write c b in
    Returned (Some (mkShadowsocksAdapter (NewTrafficTrack c)), err)
  end.

(** [parseURL]: on a parse error the named results keep their zero
    values. *)
Definition parseURL (s : string) : string * string * string * option string :=
  match url_Parse s with
  | inr err => ("", "", "", Some err)
  | inl u =>
    let addr := URL_Host u in
    match URL_User u with
    | Some user => (addr, Username user, Password user, None)
    | None => (addr, "", "", None)
    end
  end.

(** [NewShadowSocks]: the error of [parseURL] is dropped. *)
Definition NewShadowSocks (name ssURL : string) : Proxy + string :=
  let '(server, cipher, password, _) := parseURL ssURL in
  match PickCipher cipher password with
  | inr err => inr ("ss " +:+ server +:+ " initialize error: " +:+ err)
  | inl ciph => inl (ShadowSocks server name ciph)
  end.

(** ** Package [tunnel] *)

(** The configuration snapshot of a [Tunnel]. *)
Record Tunnel := mkTunnel {
  rules : list Rule;
  proxys : gmap string Proxy
}.

Definition log_match (addr : Addr) (rule : Rule) : Log :=
  newLog INFO (Addr_String addr +:+ " match " +:+ RuleType_String (Rule_RuleType rule)
               +:+ " using " +:+ Adapter rule).

Definition log_no_match (addr : Addr) : Log :=
  newLog INFO (Addr_String addr +:+ " doesn't match any rule using DIRECT").

(** The loop of [Tunnel.match] over the rules still to visit: the proxy
    returned (nil is [None]) and the records sent on [logCh]. *)
Fixpoint match_rules (ps : gmap string Proxy) (addr : Addr) (rs : list Rule)
  : Outcome (option Proxy * list Log) :=
  match rs with
  | [] => Returned (ps !! "DIRECT", [log_no_match addr])
  | rule :: rest =>
    match IsMatch rule addr with
    | Panicked => Panicked
    | Returned true =>
      match ps !! Adapter rule with
      | None => match_rules ps addr rest
      | Some a => Returned (Some a, [log_match addr rule])
      end
    | Returned false => match_rules ps addr rest
    end
  end.

(** [Tunnel.match] *)
Definition match_ (t : Tunnel) (addr : Addr) : Outcome (option Proxy * list Log) :=
  match_rules (proxys t) addr (rules t).

(** [fmt.Sprintf("ss://%s:%s@%s:%s", proxy[3], proxy[4], proxy[1], proxy[2])] *)
Definition ssURL_of (proxy1 proxy2 proxy3 proxy4 : string) : string :=
  "ss://" +:+ proxy3 +:+ ":" +:+ proxy4 +:+ "@" +:+ proxy1 +:+ ":" +:+ proxy2.

(** The three loops of [UpdateConfig].  A loop that can leave the function
    with an error returns [inr] of it. *)

(** The loop over the keys of [[Proxy]]. *)
Fixpoint parse_proxys (keys : list Key) (ps : gmap string Proxy)
  : Outcome (gmap string Proxy + string) :=
  match keys with
  | [] => Returned (inl ps)
  | key :: keys' =>
    let proxy := strings.Split (Value key) "," in
    if Nat.eqb (length proxy) 0 then parse_proxys keys' ps
    else
      let proxy := trimArr proxy in
      do kind <~ index proxy 0;
      if String.eqb kind "ss" then
        if (length proxy <? 5)%nat then parse_proxys keys' ps
        else
          do proxy3 <~ index proxy 3;
          do proxy4 <~ index proxy 4;
          do proxy1 <~ index proxy 1;
          do proxy2 <~ index proxy 2;
          match NewShadowSocks (Name key) (ssURL_of proxy1 proxy2 proxy3 proxy4) with
          | inr err => Returned (inr err)
          | inl ss => parse_proxys keys' (<[Name key := ss]> ps)
          end
      else parse_proxys keys' ps
  end.

(** The loop over the keys of [[Rule]]; a rule is the name of its key. *)
Fixpoint parse_rules (keys : list Key) (rs : list Rule) : Outcome (list Rule) :=
  match keys with
  | [] => Returned rs
  | key :: keys' =>
    let rule := strings.Split (Name key) "," in
    if (length rule <? 3)%nat then parse_rules keys' rs
    else
      let rule := trimArr rule in
      do kind <~ index rule 0;
      if String.eqb kind "DOMAIN-SUFFIX" then
        do rule1 <~ index rule 1;
        do rule2 <~ index rule 2;
        parse_rules keys' (rs ++ [NewDomainSuffix rule1 rule2])
      else if String.eqb kind "DOMAIN-KEYWORD" then
        do rule1 <~ index rule 1;
        do rule2 <~ index rule 2;
        parse_rules keys' (rs ++ [NewDomainKeyword rule1 rule2])
      else if String.eqb kind "GEOIP" then
        do rule1 <~ index rule 1;
        do rule2 <~ index rule 2;
        parse_rules keys' (rs ++ [NewGEOIP rule1 rule2])
      else if String.eqb kind "IP-CIDR" || String.eqb kind "IP-CIDR6" then
        do rule1 <~ index rule 1;
        do rule2 <~ index rule 2;
        parse_rules keys' (rs ++ [NewIPCIDR rule1 rule2])
      else if String.eqb kind "FINAL" then
        do rule2 <~ index rule 2;
        parse_rules keys' (rs ++ [NewFinal rule2])
      else parse_rules keys' rs
  end.

(** The loop over the keys of [[Proxy Group]].  [rule[1 : len(rule)-2]]
    panics when fewer than three fields are left after [trimArr]. *)
Fixpoint parse_groups (keys : list Key) (ps : gmap string Proxy)
  : Outcome (gmap string Proxy + string) :=
  match keys with
  | [] => Returned (inl ps)
  | key :: keys' =>
    let rule := strings.Split (Value key) "," in
    if (length rule <? 4)%nat then parse_groups keys' ps
    else
      let rule := trimArr rule in
      do kind <~ index rule 0;
      if String.eqb kind "url-test" then
        let n := length rule in
        if (n <? 3)%nat then Panicked
        else
          let proxyNames := take (n - 3) (drop 1 rule) in
          do last <~ index rule (n - 1);
          let '(delay, _) := strconv.Atoi last in
          do url <~ index rule (n - 2);
          let members := omap (fun name => ps !! name) proxyNames in
          match NewURLTest (Name key) members url (int64 (int64 delay * time_Second)) with
          | inr err => Returned (inr ("Config error: " +:+ err))
          | inl adapter => parse_groups keys' (<[Name key := adapter]> ps)
          end
      else parse_groups keys' ps
  end.

(** [Tunnel.UpdateConfig], given what [C.GetConfig] returns: the error
    (nil is [None]), the snapshot the tunnel holds afterwards and the
    groups whose [Close] was called. *)
Definition UpdateConfig (getConfig : Config + string) (t : Tunnel)
  : Outcome (option string * Tunnel * list Proxy) :=
  match getConfig with
  | inr err => Returned (Some err, t, [])
  | inl cfg =>
    do r <~ parse_proxys (Section_Proxy cfg) ∅;
    match r with
    | inr err => Returned (Some err, t, [])
    | inl ps =>
      do rs <~ parse_rules (Section_Rule cfg) [];
      do r <~ parse_groups (Section_ProxyGroup cfg) ps;
      match r with
      | inr err => Returned (Some err, t, [])
      | inl ps =>
        let ps := <["DIRECT" := Direct]> ps in
        let ps := <["REJECT" := Reject]> ps in
        let closed := filter (fun p => isURLTest p = true) (map_to_list (proxys t)).*2 in
        Returned (None, {| rules := rs; proxys := ps |}, closed)
      end
    end
  end.

(** ** Properties of [Tunnel.match] *)

(** A rule that does not decide the match of [addr]: its predicate returns
    false, or returns true while its adapter is not in the proxy map. *)
Definition misses (ps : gmap string Proxy) (addr : Addr) (r : Rule) : Prop :=
  IsMatch r addr = Returned false
  ∨ (IsMatch r addr = Returned true ∧ ps !! Adapter r = None).

Lemma match_rules_skip ps addr r rest :
  misses ps addr r →
  match_rules ps addr (r :: rest) = match_rules ps addr rest.
Proof.
  intros [Hf | [Ht Hn]]; simpl.
  - by rewrite Hf.
  - by rewrite Ht, Hn.
Qed.

Lemma match_rules_skip_all ps addr pre rest :
  Forall (misses ps addr) pre →
  match_rules ps addr (pre ++ rest) = match_rules ps addr rest.
Proof.
  induction 1 as [| r pre Hr _ IH]; [done |].
  rewrite <- app_comm_cons, match_rules_skip by done. exact IH.
Qed.

Lemma match_rules_hit ps addr r rest a :
  IsMatch r addr = Returned true →
  ps !! Adapter r = Some a →
  match_rules ps addr (r :: rest) = Returned (Some a, [log_match addr r]).
Proof. intros Ht Ha. simpl. by rewrite Ht, Ha. Qed.

(** C1.  [Tunnel.match] visits the rules in their declared order and
    returns the proxy bound to the first rule whose predicate returns true
    and whose adapter name is in the proxy map: when every rule before
    [rule] misses and [rule] matches with its adapter bound to [a], the
    result is [a], with the record of that match, and the rules after
    [rule] have no influence on it. *)
Theorem match_first_resolvable_rule_wins
    (t : Tunnel) (addr : Addr) (pre post : list Rule) (rule : Rule) (a : Proxy) :
  rules t = pre ++ rule :: post →
  Forall (misses (proxys t) addr) pre →
  IsMatch rule addr = Returned true →
  proxys t !! Adapter rule = Some a →
  match_ t addr = Returned (Some a, [log_match addr rule])
  ∧ ∀ post', match_ {| rules := pre ++ rule :: post'; proxys := proxys t |} addr
             = match_ t addr.
Proof.
  intros Hrules Hpre Ht Ha.
  assert (Hall : ∀ l, match_rules (proxys t) addr (pre ++ rule :: l)
                      = Returned (Some a, [log_match addr rule])).
  { intros l. rewrite match_rules_skip_all by done. by apply match_rules_hit. }
  unfold match_. rewrite Hrules. split.
  - apply Hall.
  - intros post'. simpl. by rewrite !Hall.
Qed.

Lemma Contains_no_match addr :
  Contains (LogPayload (log_no_match addr)) "doesn't match any rule using DIRECT".
Proof.
  exists (Addr_String addr +:+ " "), "".
  unfold log_no_match. simpl LogPayload. by rewrite append_assoc.
Qed.

(** C2.  When no rule of the snapshot both matches [addr] and resolves in
    the proxy map, [Tunnel.match] returns what the map holds under
    ["DIRECT"] and sends one record, of level INFO, whose text contains
    [doesn't match any rule using DIRECT]. *)
Theorem match_no_hit_uses_DIRECT (t : Tunnel) (addr : Addr) :
  Forall (misses (proxys t) addr) (rules t) →
  ∃ record,
    match_ t addr = Returned (proxys t !! "DIRECT", [record])
    ∧ LogType record = INFO
    ∧ Contains (LogPayload record) "doesn't match any rule using DIRECT".
Proof.
  intros Hall. exists (log_no_match addr). split; [| split].
  - unfold match_. rewrite <- (app_nil_r (rules t)).
    by rewrite match_rules_skip_all.
  - done.
  - apply Contains_no_match.
Qed.

(** C3, as the specification has it: a rule that matches with an adapter
    missing from the proxy map adds a record of level INFO to what the
    rest of the traversal sends. *)
Definition miss_is_logged (ps : gmap string Proxy) (addr : Addr)
    (rule : Rule) (rest : list Rule) : Prop :=
  ∃ record p log,
    LogType record = INFO
    ∧ match_rules ps addr rest = Returned (p, log)
    ∧ match_rules ps addr (rule :: rest) = Returned (p, record :: log).

(** C3, amended.  A rule whose predicate matches [addr] while its adapter
    name is missing from the proxy map is passed over: the traversal goes
    on with the next rule and yields the proxy and the records it yields
    without that rule, so no record is sent for the rule passed over. *)
Theorem match_passes_over_unresolved_rule
    (ps : gmap string Proxy) (addr : Addr) (rule : Rule) (rest : list Rule) :
  IsMatch rule addr = Returned true →
  ps !! Adapter rule = None →
  match_ {| rules := rule :: rest; proxys := ps |} addr
  = match_ {| rules := rest; proxys := ps |} addr.
Proof.
  intros Ht Hn. unfold match_. simpl rules. simpl proxys.
  apply match_rules_skip. right. done.
Qed.

(** ** Properties of [Tunnel.UpdateConfig] *)

Lemma Split_nonempty s sep : strings.Split s sep ≠ [].
Proof.
  induction s as [| c s IH]; simpl; [done |].
  destruct (Ascii.eqb c sep); [done |].
  by destruct (strings.Split s sep).
Qed.

(** One turn of the loop over [[Proxy]] either goes on with the next key
    or leaves [UpdateConfig] with an error, provided [trimArr] keeps the
    number of fields. *)
Lemma parse_proxys_turn key keys ps :
  (∀ l, length (trimArr l) = length l) →
  (∃ ps', parse_proxys (key :: keys) ps = parse_proxys keys ps')
  ∨ (∃ e, parse_proxys (key :: keys) ps = Returned (inr e)).
Proof.
  intros Hlen. simpl.
  pose proof (Split_nonempty (Value key) ",") as Hne.
  pose proof (Hlen (strings.Split (Value key) ",")) as Hl.
  destruct (strings.Split (Value key) ",") as [| f fs] eqn:Hsplit; [done |].
  simpl length at 1. simpl Nat.eqb.
  destruct (trimArr (f :: fs)) as [| kind l] eqn:Htrim; [done |].
  unfold index at 1. simpl lookup. simpl obind.
  destruct (String.eqb kind "ss"); [| left; by eexists].
  destruct (S (length l) <? 5)%nat eqn:Hfive; [left; by eexists |].
  apply Nat.ltb_ge in Hfive.
  destruct l as [| p1 [| p2 [| p3 [| p4 rest]]]]; simpl in Hfive; try lia.
  unfold index. simpl lookup. simpl obind.
  destruct (NewShadowSocks _ _); [left | right]; by eexists.
Qed.

Lemma parse_proxys_bad_cipher keys ps key p1 p2 p3 p4 rest e :
  (∀ l, length (trimArr l) = length l) →
  key ∈ keys →
  trimArr (strings.Split (Value key) ",") = "ss" :: p1 :: p2 :: p3 :: p4 :: rest →
  NewShadowSocks (Name key) (ssURL_of p1 p2 p3 p4) = inr e →
  ∃ e', parse_proxys keys ps = Returned (inr e').
Proof.
  intros Hlen Hin Hfields Hnew. revert ps.
  induction keys as [| k keys IH]; intros ps; [by apply elem_of_nil in Hin |].
  apply elem_of_cons in Hin as [<- | Hin].
  - exists e. simpl.
    pose proof (Split_nonempty (Value key) ",") as Hne.
    destruct (strings.Split (Value key) ",") as [| f fs]; [done |].
    simpl length at 1. simpl Nat.eqb.
    rewrite Hfields. unfold index. simpl. by rewrite Hnew.
  - destruct (parse_proxys_turn k keys ps Hlen) as [[ps' ->] | [e' ->]].
    + by apply IH.
    + by eexists.
Qed.

(** Every return of [UpdateConfig] with an error leaves the snapshot as it
    was and closes no group. *)
Lemma UpdateConfig_error_keeps getConfig t e t' closed :
  UpdateConfig getConfig t = Returned (Some e, t', closed) →
  t' = t ∧ closed = [].
Proof.
  unfold UpdateConfig. intros H.
  destruct getConfig as [cfg | err]; [| by inversion H].
  destruct (parse_proxys _ _) as [[ps | err] |]; simpl in H; try by inversion H.
  destruct (parse_rules _ _) as [rs |]; simpl in H; try by inversion H.
  destruct (parse_groups _ _) as [[ps' | err] |]; simpl in H; by inversion H.
Qed.

(** An [ss] entry with fewer than five fields is passed over. *)
Lemma parse_proxys_short_ss key keys ps rest :
  trimArr (strings.Split (Value key) ",") = "ss" :: rest →
  (length rest < 4)%nat →
  parse_proxys (key :: keys) ps = parse_proxys keys ps.
Proof.
  intros Hfields Hshort. simpl.
  pose proof (Split_nonempty (Value key) ",") as Hne.
  destruct (strings.Split (Value key) ",") as [| f fs]; [done |].
  simpl length at 1. simpl Nat.eqb.
  rewrite Hfields. unfold index at 1. simpl lookup. simpl obind. simpl String.eqb.
  cbv iota.
  replace (S (length rest) <? 5)%nat with true; [done |].
  symmetry. apply Nat.ltb_lt. lia.
Qed.

(** The loop over two runs of keys is the loop over the first and then,
    unless it left with an error, the loop over the second. *)
Lemma parse_proxys_app ks1 ks2 ps :
  parse_proxys (ks1 ++ ks2) ps
  = match parse_proxys ks1 ps with
    | Returned (inl ps') => parse_proxys ks2 ps'
    | Returned (inr e) => Returned (inr e)
    | Panicked => Panicked
    end.
Proof.
  revert ps. induction ks1 as [| key ks1 IH]; intros ps; simpl; [done |].
  unfold index.
  repeat match goal with
         | |- context [match ?x with _ => _ end] =>
           lazymatch x with
           | context [parse_proxys] => fail
           | _ => destruct x eqn:?; simpl; try done
           end
         end; apply IH.
Qed.

(** C4, amended.  [UpdateConfig] installs the new snapshot fully or not at
    all: whenever it returns an error, the rules and the proxy map of the
    tunnel are exactly what they were.  An entry of [[Proxy]] makes it
    return an error when the entry is of kind [ss], has its five fields
    and its cipher cannot be set up ([trimArr] keeping the number of
    fields).  An [ss] entry with fewer than five fields is skipped without
    an error: [UpdateConfig] does what it does on the file without that
    entry. *)
Theorem UpdateConfig_transactional :
  (∀ l, length (trimArr l) = length l) →
  (∀ cfg t key p1 p2 p3 p4 rest e,
      key ∈ Section_Proxy cfg →
      trimArr (strings.Split (Value key) ",") = "ss" :: p1 :: p2 :: p3 :: p4 :: rest →
      NewShadowSocks (Name key) (ssURL_of p1 p2 p3 p4) = inr e →
      ∃ e', UpdateConfig (inl cfg) t = Returned (Some e', t, []))
  ∧ (∀ getConfig t e t' closed,
      UpdateConfig getConfig t = Returned (Some e, t', closed) →
      rules t' = rules t ∧ proxys t' = proxys t)
  ∧ (∀ cfg t key rest before after,
      Section_Proxy cfg = before ++ key :: after →
      trimArr (strings.Split (Value key) ",") = "ss" :: rest →
      (length rest < 4)%nat →
      UpdateConfig (inl cfg) t
      = UpdateConfig
          (inl {| Section_Proxy := before ++ after;
                  Section_Rule := Section_Rule cfg;
                  Section_ProxyGroup := Section_ProxyGroup cfg |}) t).
Proof.
  intros Hlen. split; [| split].
  - intros cfg t key p1 p2 p3 p4 rest e Hin Hfields Hnew.
    destruct (parse_proxys_bad_cipher (Section_Proxy cfg) ∅ key p1 p2 p3 p4 rest e)
      as [e' He']; try done.
    exists e'. unfold UpdateConfig. by rewrite He'.
  - intros getConfig t e t' closed H.
    by apply UpdateConfig_error_keeps in H as [-> _].
  - intros cfg t key rest before after Hcut Hfields Hshort.
    unfold UpdateConfig. simpl. rewrite Hcut, !parse_proxys_app.
    destruct (parse_proxys before ∅) as [[ps | e] |]; try done.
    by rewrite (parse_proxys_short_ss key after ps rest).
Qed.

(** C9.  After a return of [UpdateConfig] without error the proxy map of
    the tunnel holds the direct proxy under ["DIRECT"] and the rejecting
    proxy under ["REJECT"], whatever [[Proxy]] and [[Proxy Group]] bound
    to these names; so when [match] finds no rule for an address, its
    lookup of ["DIRECT"] yields the direct proxy. *)
Theorem UpdateConfig_installs_DIRECT_and_REJECT
    (getConfig : Config + string) (t t' : Tunnel) (closed : list Proxy) :
  UpdateConfig getConfig t = Returned (None, t', closed) →
  proxys t' !! "DIRECT" = Some Direct
  ∧ proxys t' !! "REJECT" = Some Reject
  ∧ ∀ addr, Forall (misses (proxys t') addr) (rules t') →
            match_ t' addr = Returned (Some Direct, [log_no_match addr]).
Proof.
  unfold UpdateConfig. intros H.
  destruct getConfig as [cfg | err]; [| by inversion H].
  destruct (parse_proxys _ _) as [[ps | err] |]; simpl in H; try by inversion H.
  destruct (parse_rules _ _) as [rs |]; simpl in H; try by inversion H.
  destruct (parse_groups _ _) as [[ps' | err] |]; simpl in H; try by inversion H.
  inversion H; subst; clear H. simpl.
  assert (Hd : <["REJECT":=Reject]> (<["DIRECT":=Direct]> ps') !! "DIRECT"
               = Some Direct).
  { rewrite lookup_insert_ne by done. apply lookup_insert_eq. }
  split; [exact Hd | split; [apply lookup_insert_eq |]].
  intros addr Hall. unfold match_. simpl rules. simpl proxys.
  rewrite <- (app_nil_r rs), match_rules_skip_all by done.
  simpl. by rewrite Hd.
Qed.

(** ** Properties of [GEOIP.IsMatch] *)

(** C6, amended.  [GEOIP.IsMatch] returns true exactly when the address
    carries an IP of 4 or 16 bytes and the record that the MMDB lookup
    hands back for it, with or without an error, has the ISO code of the
    rule, compared byte for byte; it returns false when the address has no
    IP.  An error of the lookup is not looked at: when the lookup fails,
    [IsMatch] returns false provided the record handed back with the error
    has an ISO code other than that of the rule. *)
Theorem GEOIP_IsMatch_true_iff (g : GEOIP_rule) (addr : Addr) :
  (GEOIP_IsMatch g addr = Returned true
   ↔ ∃ ip record err,
       IP addr = Some ip
       ∧ (length ip = 4%nat ∨ length ip = 16%nat)
       ∧ mmdb_Country ip = (Some record, err)
       ∧ ISOCode record = country g)
  ∧ (IP addr = None → GEOIP_IsMatch g addr = Returned false)
  ∧ (∀ ip record e,
       IP addr = Some ip →
       mmdb_Country ip = (Some record, Some e) →
       ISOCode record ≠ country g →
       GEOIP_IsMatch g addr = Returned false).
Proof.
  unfold GEOIP_IsMatch, AddrFromSlice. split; [| split].
  - destruct (IP addr) as [ip |]; [| split; [done | by intros (? & ? & ? & ? & _)]].
    destruct (Nat.eqb (length ip) 4 || Nat.eqb (length ip) 16) eqn:Hlen.
    + destruct (mmdb_Country ip) as [[record |] err] eqn:Hc.
      * split.
        -- intros H. inversion H as [Heq]. apply String.eqb_eq in Heq.
           exists ip, record, err. repeat split; try done.
           apply orb_true_iff in Hlen as [Hl | Hl]; apply Nat.eqb_eq in Hl; auto.
        -- intros (ip' & record' & err' & Hip & _ & Hc' & Hiso).
           inversion Hip; subst ip'. rewrite Hc in Hc'. inversion Hc'; subst.
           f_equal. by apply String.eqb_eq.
      * split; [done |].
        intros (ip' & record' & err' & Hip & _ & Hc' & _).
        inversion Hip; subst ip'. rewrite Hc in Hc'. by inversion Hc'.
    + split; [done |].
      intros (ip' & _ & _ & Hip & Hl & _). inversion Hip; subst ip'.
      apply orb_false_iff in Hlen as [H4 H16].
      apply Nat.eqb_neq in H4, H16. by destruct Hl.
  - by intros ->.
  - intros ip record e -> Hc Hne.
    destruct (Nat.eqb (length ip) 4 || Nat.eqb (length ip) 16); [| done].
    rewrite Hc. f_equal. by apply String.eqb_neq.
Qed.

(** ** Properties of [ShadowSocks.Generator] *)

(** C5.  When the connection to the server is made and the write of the
    address header fails, [ShadowSocks.Generator] returns the error of the
    write together with an adapter that is not nil. *)
Theorem ShadowSocks_Generator_write_error
    (server : string) (cipher : Cipher) (addr : Addr)
    (c : Conn) (b : list Z) (n : Z) (e : string) :
  net_Dial server = inl c →
  serializesSocksAddr addr = Returned b →
  Conn_Write (StreamConn cipher c) b = (n, Some e) →
  ShadowSocks_Generator server cipher addr
  = Returned (Some (mkShadowsocksAdapter (NewTrafficTrack (StreamConn cipher c))),
              Some e).
Proof.
  intros Hd Hs Hw. unfold ShadowSocks_Generator.
  rewrite Hd, Hs. simpl. by rewrite Hw.
Qed.

(** A failed dial is the one path on which no adapter is returned. *)
Lemma ShadowSocks_Generator_dial_error server cipher addr e :
  net_Dial server = inr e →
  ShadowSocks_Generator server cipher addr
  = Returned (None, Some (server +:+ " connect error")).
Proof. intros Hd. unfold ShadowSocks_Generator. by rewrite Hd. Qed.

End Router.

Arguments Direct {Cipher}.
Arguments Reject {Cipher}.
Arguments ShadowSocks {Cipher} server name cipher.
Arguments URLTest {Cipher} name proxys rawURL delay.
Arguments rules {Cipher} t.
Arguments proxys {Cipher} t.
Arguments mkTunnel {Cipher} rules proxys.
Arguments misses {Cipher} ps addr r.
Arguments miss_is_logged {Cipher} Addr_String RuleType_String ps addr rule rest.
Arguments mkShadowsocksAdapter {Conn} conn.
Arguments NewTrafficTrack {Conn} TrafficTrack_Conn.

(** ** Package [observable] *)

Module observable.

(** A [Subscription] is a receive-only channel; channels are told apart by
    the order in which [make] created them. *)
Definition Subscription := nat.

(** Modelled from the spec: [observable/subscriber.go] is not among the
    sources.  A subscriber owns the channel it hands out as its
    subscription ([Out]), and closing the subscriber closes that channel
    ("removes the subscriber and closes its receiver"). *)
Record Subscriber := mkSubscriber {
  buffer : Subscription
}.

Definition Out (s : Subscriber) : Subscription := buffer s.

(** An [Observable] with the part of the heap it acts on: the listener
    map (a [sync.Map] from subscriptions to subscribers), the flag [done],
    the number of channels made so far, the channels closed so far and
    what [println] wrote. *)
Record Observable := mkObservable {
  listener : gmap Subscription Subscriber;
  done : bool;
  made : nat;
  closed : gset Subscription;
  printed : list string
}.

(** [NewObservable], before the first item of its source is processed. *)
Definition NewObservable : Observable :=
  {| listener := ∅; done := false; made := 0; closed := ∅; printed := [] |}.

(** [newSubscriber]: a subscriber around a channel made for it. *)
Definition newSubscriber (o : Observable) : Subscriber * Observable :=
  (mkSubscriber (made o),
   {| listener := listener o; done := done o; made := S (made o);
      closed := closed o; printed := printed o |}).

(** [subscriber.Close()] *)
Definition Subscriber_Close (s : Subscriber) (o : Observable) : Observable :=
  {| listener := listener o; done := done o; made := made o;
     closed := closed o ∪ {[buffer s]}; printed := printed o |}.

(** [o.close()]: sets [done] and closes every subscriber of the listener
    map. *)
Definition close (o : Observable) : Observable :=
  {| listener := listener o; done := true; made := made o;
     closed := closed o ∪ list_to_set (buffer <$> (map_to_list (listener o)).*2);
     printed := printed o |}.

(** [o.Subscribe()]: the subscription (nil is [None]), the error and the
    observable afterwards. *)
Definition Subscribe (o : Observable)
  : option Subscription * option string * Observable :=
  if done o then (None, Some "Observable is closed", o)
  else
    let '(subscriber, o) := newSubscriber o in
    (Some (Out subscriber), None,
     {| listener := <[Out subscriber := subscriber]> (listener o);
        done := done o; made := made o; closed := closed o;
        printed := printed o |}).

(** [o.UnSubscribe(sub)] *)
Definition UnSubscribe (sub : Subscription) (o : Observable) : Observable :=
  match listener o !! sub with
  | None =>
    {| listener := listener o; done := done o; made := made o;
       closed := closed o; printed := printed o ++ ["not exist"] |}
  | Some subscriber =>
    Subscriber_Close subscriber
      {| listener := delete (Out subscriber) (listener o);
         done := done o; made := made o; closed := closed o;
         printed := printed o |}
  end.

(** The states an observable goes through. *)
Inductive reachable : Observable → Prop :=
| reachable_new : reachable NewObservable
| reachable_Subscribe o : reachable o → reachable (Subscribe o).2
| reachable_UnSubscribe sub o : reachable o → reachable (UnSubscribe sub o)
| reachable_close o : reachable o → reachable (close o).

(** What holds of every such state: a subscriber is filed under the
    channel it hands out, and listener map and closed channels only hold
    channels already made. *)
Record wf (o : Observable) : Prop := mk_wf {
  wf_key : ∀ k s, listener o !! k = Some s → Out s = k;
  wf_made : ∀ k s, listener o !! k = Some s → (k < made o)%nat;
  wf_closed : ∀ k, k ∈ closed o → (k < made o)%nat
}.

Lemma wf_NewObservable : wf NewObservable.
Proof. split; simpl; intros; [done | done | set_solver]. Qed.

Lemma wf_Subscribe o : wf o → wf (Subscribe o).2.
Proof.
  intros [Hk Hm Hc]. unfold Subscribe.
  destruct (done o); simpl; [by split |].
  split; simpl.
  - intros k s. unfold Out at 1. simpl.
    intros [[<- <-] | [_ H]]%lookup_insert_Some; [done | by apply Hk].
  - intros k s. unfold Out. simpl.
    intros [[<- <-] | [_ H]]%lookup_insert_Some; [lia |].
    apply Hm in H. lia.
  - intros k Hin. apply Hc in Hin. lia.
Qed.

Lemma wf_UnSubscribe sub o : wf o → wf (UnSubscribe sub o).
Proof.
  intros [Hk Hm Hc]. unfold UnSubscribe.
  destruct (listener o !! sub) as [s |] eqn:Hs; [| by split].
  split; simpl.
  - intros k s' [_ H]%lookup_delete_Some. by apply Hk.
  - intros k s' [_ H]%lookup_delete_Some. by apply Hm in H.
  - intros k [Hin | ->%elem_of_singleton]%elem_of_union; [by apply Hc |].
    apply Hm with s. by rewrite <- (Hk _ _ Hs) in Hs.
Qed.

Lemma wf_close o : wf o → wf (close o).
Proof.
  intros [Hk Hm Hc]. split; simpl; [done | done |].
  intros k [Hin | Hin]%elem_of_union; [by apply Hc |].
  apply elem_of_list_to_set, list_elem_of_fmap in Hin as (s & -> & Hin).
  apply list_elem_of_fmap in Hin as ([k' s'] & -> & Hin).
  apply elem_of_map_to_list in Hin. simpl.
  rewrite <- (Hk _ _ Hin) in Hin. by apply Hm in Hin.
Qed.

Lemma reachable_wf o : reachable o → wf o.
Proof.
  induction 1; auto using wf_NewObservable, wf_Subscribe, wf_UnSubscribe, wf_close.
Qed.

Lemma close_done o : done (close o) = true.
Proof. done. Qed.

(** C8.  [Subscribe] on an observable that is done returns an error and no
    subscription, and leaves the observable as it was; on an observable
    that is not done it returns, with a nil error, a subscription that was
    not in the listener map and is not closed, and the listener map
    afterwards is the one before with that one subscriber added. *)
Theorem Subscribe_spec (o : Observable) :
  reachable o →
  (done o = true →
     ∃ e, Subscribe o = (None, Some e, o))
  ∧ (done o = false →
     ∃ sub o',
       Subscribe o = (Some sub, None, o')
       ∧ listener o !! sub = None
       ∧ (sub ∉ closed o')
       ∧ listener o' = <[sub := mkSubscriber sub]> (listener o)
       ∧ size (listener o') = S (size (listener o))
       ∧ closed o' = closed o
       ∧ done o' = false).
Proof.
  intros [Hk Hm Hc]%reachable_wf. unfold Subscribe. split; intros Hdone; rewrite Hdone.
  - by eexists.
  - simpl. eexists _, _. split; [done |].
    assert (Hfresh : listener o !! made o = None).
    { destruct (listener o !! made o) as [s |] eqn:Hs; [| done].
      apply Hm in Hs. lia. }
    unfold Out. simpl. repeat split; try done.
    + intros Hin%Hc. lia.
    + by apply map_size_insert_None.
Qed.

(** C10.  [UnSubscribe] with a subscription that is not in the listener
    map changes neither the map nor the closed channels; with one that is
    in the map it removes the entry of that subscription and closes its
    channel, and nothing else: every other entry of the map stays, and no
    other channel is closed. *)
Theorem UnSubscribe_spec (o : Observable) (sub : Subscription) :
  reachable o →
  (listener o !! sub = None →
     listener (UnSubscribe sub o) = listener o
     ∧ closed (UnSubscribe sub o) = closed o
     ∧ done (UnSubscribe sub o) = done o)
  ∧ (is_Some (listener o !! sub) →
     listener (UnSubscribe sub o) = delete sub (listener o)
     ∧ listener (UnSubscribe sub o) !! sub = None
     ∧ (∀ k, k ≠ sub → listener (UnSubscribe sub o) !! k = listener o !! k)
     ∧ closed (UnSubscribe sub o) = closed o ∪ {[sub]}
     ∧ (∀ k, k ≠ sub → k ∈ closed (UnSubscribe sub o) ↔ k ∈ closed o)
     ∧ done (UnSubscribe sub o) = done o).
Proof.
  intros [Hk Hm Hc]%reachable_wf. unfold UnSubscribe. split.
  - by intros ->.
  - intros [s Hs]. rewrite Hs. pose proof (Hk _ _ Hs) as Hout.
    unfold Subscriber_Close. simpl. unfold Out in Hout. rewrite Hout.
    unfold Out. rewrite Hout.
    repeat split; try done.
    + apply lookup_delete_eq.
    + intros k Hne. by apply lookup_delete_ne.
    + intros [Hin | Heq%elem_of_singleton]%elem_of_union; done.
    + intros Hin. apply elem_of_union. by left.
Qed.

End observable.

(** ** The address header read back *)

Lemma string_of_bytes_of_string s : string_of_bytes (bytes_of_string s) = s.
Proof.
  unfold string_of_bytes, bytes_of_string.
  rewrite <- (string_of_list_ascii_of_string s) at 2. f_equal.
  induction (list_ascii_of_string s) as [| c l IH]; simpl; [done |].
  by rewrite N2Z.id, ascii_N_embedding, IH.
Qed.

Lemma length_bytes_of_string s : length (bytes_of_string s) = String.length s.
Proof.
  unfold bytes_of_string. rewrite length_map.
  induction s as [| c s IH]; simpl; [done | by rewrite IH].
Qed.

(** The two bytes of a port put together again. *)
Lemma port_bytes p :
  0 <= p <= 65535 →
  uint8 (Z.shiftr p 8) * 256 + uint8 (Z.land p 255) = p.
Proof.
  intros Hp. unfold uint8.
  rewrite Z.shiftr_div_pow2 by lia.
  change 255 with (Z.ones 8). rewrite Z.land_ones by lia.
  change (2 ^ 8) with 256.
  rewrite Z.mod_mod by lia.
  rewrite (Z.mod_small (p / 256)) by (split; [apply Z.div_pos | apply Z.div_lt_upper_bound]; lia).
  pose proof (Z.div_mod p 256). lia.
Qed.

Lemma decode_domain (host : list Z) (hi lo : Z) :
  decodeSocksAddr (3 :: Z.of_nat (length host) :: host ++ [hi; lo])
  = Some (DstDomain (string_of_bytes host), hi * 256 + lo, []).
Proof.
  unfold decodeSocksAddr. rewrite Nat2Z.id.
  replace (length (host ++ [hi; lo]) <? length host)%nat with false
    by (symmetry; apply Nat.ltb_ge; rewrite length_app; lia).
  by rewrite drop_app_length, take_app_length.
Qed.

Lemma decode_ipv4 (ip : list Z) (hi lo : Z) :
  length ip = 4%nat →
  decodeSocksAddr (1 :: ip ++ [hi; lo]) = Some (DstIPv4 ip, hi * 256 + lo, []).
Proof.
  intros Hlen. unfold decodeSocksAddr.
  replace (length (ip ++ [hi; lo]) <? 4)%nat with false
    by (symmetry; apply Nat.ltb_ge; rewrite length_app; lia).
  by rewrite drop_app_length', take_app_length'.
Qed.

Lemma decode_ipv6 (ip : list Z) (hi lo : Z) :
  length ip = 16%nat →
  decodeSocksAddr (4 :: ip ++ [hi; lo]) = Some (DstIPv6 ip, hi * 256 + lo, []).
Proof.
  intros Hlen. unfold decodeSocksAddr.
  replace (length (ip ++ [hi; lo]) <? 16)%nat with false
    by (symmetry; apply Nat.ltb_ge; rewrite length_app; lia).
  by rewrite drop_app_length', take_app_length'.
Qed.

(** [To4] yields four bytes that are the same address. *)
Lemma To4_Some ip ip4 :
  net.To4 ip = Some ip4 → length ip4 = 4%nat ∧ net.Equal ip4 ip = true.
Proof.
  unfold net.To4, net.IPv4len, net.IPv6len.
  destruct (Nat.eqb (length ip) 4) eqn:H4.
  - intros [= <-]. apply Nat.eqb_eq in H4. split; [done |].
    unfold net.Equal, net.To16, net.IPv4len. rewrite H4. simpl.
    by apply bool_decide_eq_true.
  - destruct (Nat.eqb (length ip) 16) eqn:H16; [| done]. simpl.
    destruct (net.isZeros (take 10 ip)) eqn:Hz; [| done]. simpl.
    destruct (bool_decide (ip !! 10%nat = Some 255)) eqn:H10; [| done].
    destruct (bool_decide (ip !! 11%nat = Some 255)) eqn:H11; [| done].
    simpl. intros [= <-].
    apply Nat.eqb_eq in H16.
    apply bool_decide_eq_true in H10, H11.
    do 17 (destruct ip as [| ? ip]; try discriminate H16).
    unfold net.isZeros in Hz. cbn [take forallb] in Hz.
    repeat (apply andb_prop in Hz as [?%Z.eqb_eq Hz]); subst.
    simpl in H10, H11. injection H10 as ->. injection H11 as ->.
    split; [done |].
    unfold net.Equal. simpl. by apply bool_decide_eq_true.
Qed.

(** [To16] yields sixteen bytes that are the same address. *)
Lemma To16_Some ip ip16 :
  net.To16 ip = Some ip16 → length ip16 = 16%nat ∧ net.Equal ip16 ip = true.
Proof.
  unfold net.To16, net.IPv4len, net.IPv6len.
  destruct (Nat.eqb (length ip) 4) eqn:H4.
  - intros [= <-]. apply Nat.eqb_eq in H4.
    split; [simpl; by rewrite H4 |].
    unfold net.Equal, net.To16, net.IPv4len, net.IPv6len.
    simpl length. rewrite H4. simpl. by apply bool_decide_eq_true.
  - destruct (Nat.eqb (length ip) 16) eqn:H16; [| done].
    intros [= <-]. apply Nat.eqb_eq in H16. split; [done |].
    unfold net.Equal, net.To16, net.IPv4len, net.IPv6len.
    rewrite H16. simpl. by apply bool_decide_eq_true.
Qed.

(** A port written in decimal: digits only, at least one, with value
    [p]. *)
Definition decimal (s : string) (p : Z) : Prop :=
  s ≠ "" ∧ strconv.digits 0 s = Some p.

Lemma digits_nonneg s acc v : 0 <= acc → strconv.digits acc s = Some v → 0 <= v.
Proof.
  revert acc. induction s as [| c s IH]; simpl; intros acc Hacc.
  - intros [= <-]. done.
  - unfold strconv.digit.
    destruct ((48 <=? Z.of_N (N_of_ascii c)) && (Z.of_N (N_of_ascii c) <=? 57)) eqn:Hc;
      [| done].
    apply andb_prop in Hc as [H1%Z.leb_le H2%Z.leb_le].
    apply IH. lia.
Qed.

Lemma digits_ge s acc v : 0 <= acc → strconv.digits acc s = Some v → acc <= v.
Proof.
  revert acc. induction s as [| c s IH]; simpl; intros acc Hacc.
  - intros [= <-]. done.
  - unfold strconv.digit.
    destruct ((48 <=? Z.of_N (N_of_ascii c)) && (Z.of_N (N_of_ascii c) <=? 57)) eqn:Hc;
      [| done].
    apply andb_prop in Hc as [H1%Z.leb_le H2%Z.leb_le].
    intros H. apply IH in H; lia.
Qed.

(** A digit is no sign. *)
Lemma digit_not_sign c d :
  strconv.digit c = Some d → Ascii.eqb c "-" = false ∧ Ascii.eqb c "+" = false.
Proof.
  intros Hd. split.
  - destruct (Ascii.eqb c "-") eqn:E; [| done].
    apply Ascii.eqb_eq in E. subst c. discriminate Hd.
  - destruct (Ascii.eqb c "+") eqn:E; [| done].
    apply Ascii.eqb_eq in E. subst c. discriminate Hd.
Qed.

(** On digits that stay small, the loop of [ParseUint] reads what [digits]
    reads. *)
Lemma ParseUint_loop_digits s acc v :
  0 <= acc → strconv.digits acc s = Some v → v <= 65535 →
  strconv.ParseUint_loop acc s = (v, None).
Proof.
  revert acc. induction s as [| c s IH]; simpl; intros acc Hacc Hd Hv.
  - by injection Hd as <-.
  - destruct (strconv.digit c) as [d |] eqn:Hc; [| done].
    assert (Hd0 : 0 <= d).
    { unfold strconv.digit in Hc.
      destruct ((48 <=? Z.of_N (N_of_ascii c)) && (Z.of_N (N_of_ascii c) <=? 57)) eqn:Hb;
        [| done].
      apply andb_prop in Hb as [H1%Z.leb_le _]. injection Hc as <-. lia. }
    pose proof (digits_ge s (10 * acc + d) v ltac:(lia) Hd) as Hge.
    destruct (Z.leb_spec (strconv.maxUint64 / 10 + 1) acc) as [Hbig | _].
    { assert (Hcut : 65535 < strconv.maxUint64 / 10 + 1) by (vm_compute; reflexivity).
      lia. }
    destruct (Z.ltb_spec strconv.maxUint64 (acc * 10 + d)) as [Hbig | _].
    { assert (Hmax : 65535 < strconv.maxUint64) by (vm_compute; reflexivity). lia. }
    apply IH; [lia | | done]. by rewrite Z.mul_comm.
Qed.

(** [strconv.Atoi] reads such a port without error. *)
Lemma Atoi_decimal s p :
  decimal s p → p <= 65535 → strconv.Atoi s = (p, None).
Proof.
  intros [Hne Hd] Hp. destruct s as [| c s]; [done |].
  pose proof (digits_nonneg _ _ _ (Z.le_refl 0) Hd) as Hp0.
  assert (Hc : ∃ d, strconv.digit c = Some d).
  { simpl in Hd. destruct (strconv.digit c); [by eexists | done]. }
  destruct Hc as [d Hc]. destruct (digit_not_sign c d Hc) as [Hminus Hplus].
  unfold strconv.Atoi.
  destruct ((0 <? String.length (String c s))%nat
            && (String.length (String c s) <? 19)%nat).
  - rewrite Hminus, Hplus. cbv beta iota zeta delta [orb andb].
    by rewrite Hd.
  - unfold strconv.ParseInt. rewrite Hminus, Hplus.
    unfold strconv.ParseUint.
    rewrite (ParseUint_loop_digits (String c s) 0 p) by done.
    simpl bool_decide. cbv iota. simpl negb. simpl andb.
    destruct (Z.leb_spec (2 ^ 63) p) as [Hbig | _]; [lia | done].
Qed.

(** An address of one of the three SOCKS5 types: a domain name of at most
    255 bytes, or an IP that is an IPv4 address, or an IP of either
    length. *)
Definition socks_address (addr : Addr) : Prop :=
  (AddrType addr = socks.AtypDomainName ∧ (String.length (Host addr) ≤ 255)%nat)
  ∨ (AddrType addr = socks.AtypIPv4 ∧ ∃ ip, IP addr = Some ip ∧ is_Some (net.To4 ip))
  ∨ (AddrType addr = socks.AtypIPv6 ∧ ∃ ip, IP addr = Some ip ∧ is_Some (net.To16 ip)).

(** The destination read back is the one of the address: the same host
    for a domain name, the same IP, in 4 or 16 bytes, otherwise. *)
Definition same_destination (addr : Addr) (d : Destination) : Prop :=
  match d with
  | DstDomain host => AddrType addr = socks.AtypDomainName ∧ host = Host addr
  | DstIPv4 ip4 =>
    AddrType addr = socks.AtypIPv4 ∧ length ip4 = 4%nat
    ∧ ∃ ip, IP addr = Some ip ∧ net.Equal ip4 ip = true
  | DstIPv6 ip16 =>
    AddrType addr = socks.AtypIPv6 ∧ length ip16 = 16%nat
    ∧ ∃ ip, IP addr = Some ip ∧ net.Equal ip16 ip = true
  end.

(** C7.  For an address of each of the three SOCKS5 types whose port is a
    decimal number from 0 to 65535, [serializesSocksAddr] returns a header
    that, read according to the framing of section 6.2, gives back the
    host or the IP of the address and its port, with no byte left over. *)
Theorem serializesSocksAddr_roundtrip (addr : Addr) (p : Z) :
  socks_address addr →
  decimal (Port addr) p →
  p <= 65535 →
  ∃ bs d,
    serializesSocksAddr addr = Returned bs
    ∧ decodeSocksAddr bs = Some (d, p, [])
    ∧ same_destination addr d.
Proof.
  intros Haddr Hdec Hmax.
  pose proof (Atoi_decimal _ _ Hdec Hmax) as Hport.
  assert (Hp : 0 <= p <= 65535).
  { split; [| done]. destruct Hdec as [_ Hd].
    exact (digits_nonneg _ _ _ (Z.le_refl 0) Hd). }
  unfold serializesSocksAddr. rewrite Hport.
  destruct Haddr as [[Ht Hlen] | [[Ht (ip & Hip & [ip' Hto])] | [Ht (ip & Hip & [ip' Hto])]]];
    rewrite Ht; simpl Z.eqb; cbv iota.
  - eexists _, _. split; [done |].
    change (uint8 socks.AtypDomainName) with 3.
    unfold uint8 at 1. rewrite Z.mod_small by lia.
    rewrite <- length_bytes_of_string. simpl app.
    rewrite decode_domain, port_bytes, string_of_bytes_of_string by done.
    done.
  - rewrite Hip, Hto. simpl slice_or_nil.
    destruct (To4_Some _ _ Hto) as [Hl Heq].
    eexists _, _. split; [done |].
    change (uint8 socks.AtypIPv4) with 1. simpl app.
    rewrite decode_ipv4, port_bytes by done.
    split; [done |]. simpl. eauto.
  - rewrite Hip, Hto. simpl slice_or_nil.
    destruct (To16_Some _ _ Hto) as [Hl Heq].
    eexists _, _. split; [done |].
    change (uint8 socks.AtypIPv6) with 4. simpl app.
    rewrite decode_ipv6, port_bytes by done.
    split; [done |]. simpl. eauto.
Qed.

(** ** A router to run the definitions on *)

Module Example.

(** A cipher is known by its name and key; a connection by the server it
    reaches. *)
Definition Cipher : Type := string * string.
Definition Conn : Type := string.

(** An instance of [trimArr]: the blanks around each field removed. *)
Definition trimArr (arr : list string) : list string := map strings.Trim arr.

Lemma trimArr_length l : length (trimArr l) = length l.
Proof. apply length_map. Qed.

(** An instance of [url.Parse] for URLs of the form
    [ss://user:password@host]. *)
Definition url_Parse (s : string) : URL + string :=
  if String.prefix "ss://" s then
    let rest := String.substring 5 (String.length s - 5) s in
    match strings.Split rest "@" with
    | [host] => inl (mkURL host None)
    | [user; host] =>
      match strings.Split user ":" with
      | [name] => inl (mkURL host (Some (mkUserinfo name "")))
      | [name; password] => inl (mkURL host (Some (mkUserinfo name password)))
      | _ => inr "invalid userinfo"
      end
    | _ => inr "invalid URL"
    end
  else inr "missing protocol scheme".

(** An instance of [core.PickCipher] that knows three ciphers. *)
Definition PickCipher (name password : string) : Cipher + string :=
  if bool_decide (name ∈ ["aes-128-gcm"; "aes-256-gcm"; "chacha20-ietf-poly1305"])
  then inl (name, password)
  else inr "cipher not supported".

(** An MMDB reader that knows one address, and one whose every lookup
    fails with an empty record. *)
Definition mmdb_Country (ip : list Z) : option Country * option string :=
  if bool_decide (ip = [8; 8; 8; 8]) then (Some (mkCountry "US"), None)
  else (Some (mkCountry ""), None).

Definition mmdb_broken (ip : list Z) : option Country * option string :=
  (Some (mkCountry ""), Some "unexpected end of database").

Definition Addr_String (addr : Addr) : string := Host addr.

Definition RuleType_String (t : RuleType) : string :=
  match t with
  | DomainSuffix => "DomainSuffix"
  | DomainKeyword => "DomainKeyword"
  | GEOIP => "GEOIP"
  | IPCIDR => "IPCIDR"
  | FINAL => "FINAL"
  end.

(** A network in which one server takes the connection and fails every
    write, the empty address cannot be dialled and every other server
    works. *)
Definition net_Dial (server : string) : Conn + string :=
  if String.eqb server "" then inr "missing address" else inl server.

Definition StreamConn (cipher : Cipher) (c : Conn) : Conn := c.

Definition Conn_Write (c : Conn) (b : list Z) : Z * option string :=
  if String.eqb c "down.example:8388" then (0, Some "broken pipe")
  else (Z.of_nat (length b), None).

(** Modelled from the spec: the constructors of [rules/domain_suffix.go],
    [rules/domain_keyword.go], [rules/ipcidr.go] and [rules/final.go] are
    not among the sources.  A suffix rule matches a host equal to the
    suffix or ending with a dot and the suffix; a keyword rule matches a
    host containing the keyword; an IP-CIDR rule, here for IPv4 prefixes
    only, matches an address whose IP is present and lies in the prefix;
    the final rule matches every address. *)
Definition NewDomainSuffix (suffix adapter : string) : Rule :=
  {| Rule_RuleType := DomainSuffix;
     IsMatch := fun addr =>
       Returned (String.eqb (Host addr) suffix
                 || strings.HasSuffix (Host addr) ("." +:+ suffix));
     Adapter := adapter;
     Payload := suffix |}.

Definition NewDomainKeyword (keyword adapter : string) : Rule :=
  {| Rule_RuleType := DomainKeyword;
     IsMatch := fun addr => Returned (strings.Contains (Host addr) keyword);
     Adapter := adapter;
     Payload := keyword |}.

(** The first [bits] bits of four bytes, as a number. *)
Definition top_bits (bits : Z) (ip4 : list Z) : Z :=
  Z.shiftr (fold_left (fun acc b => acc * 256 + b) ip4 0) (32 - bits).

Definition ParseCIDR (s : string) : option (list Z * Z) :=
  match strings.Split s "/" with
  | [ip; bits] =>
    let bytes := map (fun f => (strconv.Atoi f).1) (strings.Split ip ".") in
    let n := (strconv.Atoi bits).1 in
    if Nat.eqb (length bytes) 4 && forallb (fun b => (0 <=? b) && (b <=? 255)) bytes
       && (0 <=? n) && (n <=? 32)
    then Some (bytes, n) else None
  | _ => None
  end.

Definition NewIPCIDR (prefix adapter : string) : Rule :=
  {| Rule_RuleType := IPCIDR;
     IsMatch := fun addr =>
       Returned
         match ParseCIDR prefix, IP addr ≫= net.To4 with
         | Some (net, bits), Some ip4 =>
           bool_decide (top_bits bits ip4 = top_bits bits net)
         | _, _ => false
         end;
     Adapter := adapter;
     Payload := prefix |}.

Definition NewFinal (adapter : string) : Rule :=
  {| Rule_RuleType := FINAL;
     IsMatch := fun _ => Returned true;
     Adapter := adapter;
     Payload := "" |}.

(** An instance of [NewURLTest] that refuses an empty probe URL. *)
Definition NewURLTest (name : string) (ps : list (Proxy Cipher)) (rawURL : string)
    (delay : Z) : Proxy Cipher + string :=
  if String.eqb rawURL "" then inr "empty url"
  else inl (URLTest name ps rawURL delay).

(** The functions of the router over these instances. *)
Definition match_ := match_ Cipher Addr_String RuleType_String.
Definition UpdateConfig :=
  UpdateConfig Cipher mmdb_Country url_Parse PickCipher trimArr
    NewDomainSuffix NewDomainKeyword NewIPCIDR NewFinal NewURLTest.
Definition Generator := ShadowSocks_Generator Cipher Conn net_Dial StreamConn Conn_Write.

(** Addresses *)
Definition api_blocked_test : Addr :=
  mkAddr 0 socks.AtypDomainName "api.blocked.test" None "443".
Definition notexample_com : Addr :=
  mkAddr 0 socks.AtypDomainName "notexample.com" None "80".
Definition dns_8888 : Addr :=
  mkAddr 0 socks.AtypIPv4 "8.8.8.8" (Some [8; 8; 8; 8]) "53".
Definition mapped_8888 : Addr :=
  mkAddr 0 socks.AtypIPv4 "::ffff:8.8.8.8"
    (Some [0; 0; 0; 0; 0; 0; 0; 0; 0; 0; 255; 255; 8; 8; 8; 8]) "8080".
Definition localhost6 : Addr :=
  mkAddr 0 socks.AtypIPv6 "::1"
    (Some [0; 0; 0; 0; 0; 0; 0; 0; 0; 0; 0; 0; 0; 0; 0; 1]) "65535".

(** A snapshot whose first rule names an adapter that does not exist. *)
Definition builtin : gmap string (Proxy Cipher) :=
  <["REJECT" := Reject]> (<["DIRECT" := Direct]> ∅).

Definition blocked_rule : Rule := NewDomainSuffix "blocked.test" "NONEXISTENT".

Definition tunnel : Tunnel Cipher :=
  {| rules := [blocked_rule; NewFinal "REJECT"; NewFinal "DIRECT"];
     proxys := builtin |}.

Definition tunnel_no_final : Tunnel Cipher :=
  {| rules := [blocked_rule; NewDomainKeyword "google" "Proxy"];
     proxys := builtin |}.

(** The tunnel before any configuration is loaded. *)
Definition newTunnel : Tunnel Cipher := {| rules := []; proxys := ∅ |}.

(** Configuration files *)
Definition config_short_entry : Config :=
  {| Section_Proxy := [mkKey "ss1" "ss, example.com, 8388"];
     Section_Rule := [];
     Section_ProxyGroup := [] |}.

Definition config_bad_cipher : Config :=
  {| Section_Proxy := [mkKey "ss1" "ss, example.com, 8388, rot13, secret"];
     Section_Rule := [mkKey "FINAL,,ss1" ""];
     Section_ProxyGroup := [] |}.

Definition config_overrides_DIRECT : Config :=
  {| Section_Proxy := [mkKey "DIRECT" "ss, example.com, 8388, aes-128-gcm, secret"];
     Section_Rule := [mkKey "DOMAIN-SUFFIX,blocked.test,REJECT" ""; mkKey "FINAL,,DIRECT" ""];
     Section_ProxyGroup := [mkKey "REJECT" "url-test, DIRECT, http://probe/, 1"] |}.

End Example.


(** ** The properties at work on the example router *)

Lemma match_first_resolvable_rule_wins_witness :
  rules Example.tunnel
  = [Example.blocked_rule] ++ Example.NewFinal "REJECT" :: [Example.NewFinal "DIRECT"]
  ∧ Forall (misses (proxys Example.tunnel) Example.api_blocked_test)
           [Example.blocked_rule]
  ∧ IsMatch (Example.NewFinal "REJECT") Example.api_blocked_test = Returned true
  ∧ proxys Example.tunnel !! "REJECT" = Some Reject
  ∧ Example.match_ Example.tunnel Example.api_blocked_test
    = Returned (Some Reject,
                [newLog INFO "api.blocked.test match FINAL using REJECT"]).
Proof.
  assert (H1 : rules Example.tunnel
               = [Example.blocked_rule] ++ Example.NewFinal "REJECT"
                 :: [Example.NewFinal "DIRECT"]) by reflexivity.
  assert (H2 : Forall (misses (proxys Example.tunnel) Example.api_blocked_test)
                      [Example.blocked_rule]).
  { constructor; [| constructor]. right. split; reflexivity. }
  assert (H3 : IsMatch (Example.NewFinal "REJECT") Example.api_blocked_test
               = Returned true) by reflexivity.
  assert (H4 : proxys Example.tunnel !! "REJECT" = Some (@Reject Example.Cipher))
    by reflexivity.
  repeat (split; [assumption |]).
  exact (proj1 (match_first_resolvable_rule_wins Example.Cipher Example.Addr_String
                  Example.RuleType_String Example.tunnel Example.api_blocked_test
                  _ _ _ _ H1 H2 H3 H4)).
Defined.

Lemma match_no_hit_uses_DIRECT_witness :
  Forall (misses (proxys Example.tunnel_no_final) Example.notexample_com)
         (rules Example.tunnel_no_final)
  ∧ ∃ record,
      Example.match_ Example.tunnel_no_final Example.notexample_com
      = Returned (Some Direct, [record])
      ∧ LogType record = INFO
      ∧ Contains (LogPayload record) "doesn't match any rule using DIRECT".
Proof.
  assert (H : Forall (misses (proxys Example.tunnel_no_final) Example.notexample_com)
                     (rules Example.tunnel_no_final)).
  { repeat constructor. }
  split; [assumption |].
  exact (match_no_hit_uses_DIRECT Example.Cipher Example.Addr_String
           Example.RuleType_String Example.tunnel_no_final Example.notexample_com H).
Defined.

(** C3 fails as the specification has it.  On the example router the
    first rule matches [api.blocked.test] and names an adapter that does
    not exist; the traversal sends the one record of the rule that
    decides, and none for the rule passed over. *)
Lemma match_miss_is_not_logged :
  IsMatch Example.blocked_rule Example.api_blocked_test = Returned true
  ∧ proxys Example.tunnel !! Adapter Example.blocked_rule = None
  ∧ ¬ miss_is_logged Example.Addr_String Example.RuleType_String
        (proxys Example.tunnel) Example.api_blocked_test
        Example.blocked_rule
        [Example.NewFinal "REJECT"; Example.NewFinal "DIRECT"].
Proof.
  split; [reflexivity | split; [reflexivity |]].
  intros (record & p & log & _ & Hrest & Hall).
  vm_compute in Hrest. vm_compute in Hall.
  injection Hrest as _ <-. discriminate Hall.
Qed.

Lemma match_passes_over_unresolved_rule_witness :
  IsMatch Example.blocked_rule Example.api_blocked_test = Returned true
  ∧ proxys Example.tunnel !! Adapter Example.blocked_rule = None
  ∧ Example.match_ Example.tunnel Example.api_blocked_test
    = Example.match_
        {| rules := [Example.NewFinal "REJECT"; Example.NewFinal "DIRECT"];
           proxys := Example.builtin |}
        Example.api_blocked_test.
Proof.
  assert (H1 : IsMatch Example.blocked_rule Example.api_blocked_test = Returned true)
    by reflexivity.
  assert (H2 : proxys Example.tunnel !! Adapter Example.blocked_rule = None)
    by reflexivity.
  repeat (split; [assumption |]).
  exact (match_passes_over_unresolved_rule Example.Cipher Example.Addr_String
           Example.RuleType_String _ _ _ _ H1 H2).
Defined.

(** C4 fails as the specification has it.  An [ss] entry with three fields
    is passed over: [UpdateConfig] returns no error, and the new snapshot
    is installed. *)
Lemma UpdateConfig_accepts_short_entry :
  Section_Proxy Example.config_short_entry = [mkKey "ss1" "ss, example.com, 8388"]
  ∧ Example.trimArr (strings.Split "ss, example.com, 8388" ",")
    = ["ss"; "example.com"; "8388"]
  ∧ Example.UpdateConfig (inl Example.config_short_entry) Example.newTunnel
    = Returned (None, {| rules := []; proxys := Example.builtin |}, [])
  ∧ ¬ ∃ e t' closed,
        Example.UpdateConfig (inl Example.config_short_entry) Example.newTunnel
        = Returned (Some e, t', closed).
Proof.
  assert (H : Example.UpdateConfig (inl Example.config_short_entry) Example.newTunnel
              = Returned (None, {| rules := []; proxys := Example.builtin |}, []))
    by (vm_compute; reflexivity).
  repeat (split; [first [reflexivity | exact H] |]).
  intros (e & t' & closed & He). rewrite H in He. discriminate He.
Qed.

Lemma UpdateConfig_transactional_witness :
  (∀ l, length (Example.trimArr l) = length l)
  ∧ (∃ e, Example.UpdateConfig (inl Example.config_bad_cipher) Example.tunnel
          = Returned (Some e, Example.tunnel, []))
  ∧ (∀ getConfig e t' closed,
       Example.UpdateConfig getConfig Example.tunnel = Returned (Some e, t', closed) →
       rules t' = rules Example.tunnel ∧ proxys t' = proxys Example.tunnel)
  ∧ Example.UpdateConfig (inl Example.config_short_entry) Example.tunnel
    = Example.UpdateConfig
        (inl {| Section_Proxy := []; Section_Rule := []; Section_ProxyGroup := [] |})
        Example.tunnel.
Proof.
  split; [exact Example.trimArr_length |].
  destruct (UpdateConfig_transactional Example.Cipher Example.mmdb_Country
              Example.url_Parse Example.PickCipher Example.trimArr
              Example.NewDomainSuffix Example.NewDomainKeyword Example.NewIPCIDR
              Example.NewFinal Example.NewURLTest Example.trimArr_length)
    as (Herr & Hkeep & Hskip).
  split; [| split].
  - apply (Herr Example.config_bad_cipher Example.tunnel
             (mkKey "ss1" "ss, example.com, 8388, rot13, secret")
             "example.com" "8388" "rot13" "secret" []
             "ss example.com:8388 initialize error: cipher not supported").
    + apply list_elem_of_here.
    + reflexivity.
    + reflexivity.
  - intros getConfig e t' closed. apply Hkeep.
  - apply (Hskip Example.config_short_entry Example.tunnel
             (mkKey "ss1" "ss, example.com, 8388") ["example.com"; "8388"] [] []).
    + reflexivity.
    + reflexivity.
    + simpl. lia.
Defined.

Lemma UpdateConfig_installs_DIRECT_and_REJECT_witness :
  Example.UpdateConfig (inl Example.config_overrides_DIRECT) Example.newTunnel
  = Returned (None,
              {| rules := [Example.NewDomainSuffix "blocked.test" "REJECT";
                           Example.NewFinal "DIRECT"];
                 proxys := Example.builtin |},
              [])
  ∧ Example.builtin !! "DIRECT" = Some Direct
  ∧ Example.builtin !! "REJECT" = Some Reject.
Proof.
  assert (H : Example.UpdateConfig (inl Example.config_overrides_DIRECT) Example.newTunnel
              = Returned (None,
                          {| rules := [Example.NewDomainSuffix "blocked.test" "REJECT";
                                       Example.NewFinal "DIRECT"];
                             proxys := Example.builtin |},
                          [])) by (vm_compute; reflexivity).
  split; [assumption |].
  destruct (UpdateConfig_installs_DIRECT_and_REJECT Example.Cipher Example.mmdb_Country
              Example.Addr_String Example.RuleType_String
              Example.url_Parse Example.PickCipher Example.trimArr
              Example.NewDomainSuffix Example.NewDomainKeyword Example.NewIPCIDR
              Example.NewFinal Example.NewURLTest _ _ _ _ H) as (Hd & Hr & _).
  split; assumption.
Defined.

(** C6 fails as the specification has it.  With a reader whose lookups
    fail with an empty record, a GEOIP rule with an empty country code
    matches: the error of the lookup does not make [IsMatch] return
    false. *)
Lemma GEOIP_IsMatch_true_on_lookup_error :
  IP Example.dns_8888 = Some [8; 8; 8; 8]
  ∧ (Example.mmdb_broken [8; 8; 8; 8]).2 = Some "unexpected end of database"
  ∧ GEOIP_IsMatch Example.mmdb_broken (mkGEOIP "" "Proxy") Example.dns_8888
    = Returned true
  ∧ GEOIP_IsMatch Example.mmdb_broken (mkGEOIP "" "Proxy") Example.dns_8888
    ≠ Returned false.
Proof. repeat (split; [reflexivity |]). discriminate. Qed.

Lemma GEOIP_IsMatch_true_iff_witness :
  GEOIP_IsMatch Example.mmdb_Country (mkGEOIP "US" "Proxy") Example.dns_8888
  = Returned true
  ∧ GEOIP_IsMatch Example.mmdb_Country (mkGEOIP "us" "Proxy") Example.dns_8888
    = Returned false
  ∧ GEOIP_IsMatch Example.mmdb_Country (mkGEOIP "US" "Proxy") Example.notexample_com
    = Returned false
  ∧ GEOIP_IsMatch Example.mmdb_broken (mkGEOIP "US" "Proxy") Example.dns_8888
    = Returned false.
Proof.
  split; [| split; [| split]].
  - apply (GEOIP_IsMatch_true_iff Example.mmdb_Country (mkGEOIP "US" "Proxy")
             Example.dns_8888).
    exists [8; 8; 8; 8], (mkCountry "US"), None.
    repeat split; auto.
  - reflexivity.
  - by apply (GEOIP_IsMatch_true_iff Example.mmdb_Country (mkGEOIP "US" "Proxy")
                Example.notexample_com).
  - by apply (proj2 (proj2 (GEOIP_IsMatch_true_iff Example.mmdb_broken
                              (mkGEOIP "US" "Proxy") Example.dns_8888))
                [8; 8; 8; 8] (mkCountry "") "unexpected end of database").
Defined.

Lemma ShadowSocks_Generator_write_error_witness :
  Example.net_Dial "down.example:8388" = inl "down.example:8388"
  ∧ serializesSocksAddr Example.dns_8888 = Returned [1; 8; 8; 8; 8; 0; 53]
  ∧ Example.Conn_Write "down.example:8388" [1; 8; 8; 8; 8; 0; 53]
    = (0, Some "broken pipe")
  ∧ Example.Generator "down.example:8388" ("aes-128-gcm", "secret") Example.dns_8888
    = Returned (Some (mkShadowsocksAdapter (NewTrafficTrack "down.example:8388")),
                Some "broken pipe").
Proof.
  assert (H1 : Example.net_Dial "down.example:8388" = inl "down.example:8388")
    by reflexivity.
  assert (H2 : serializesSocksAddr Example.dns_8888 = Returned [1; 8; 8; 8; 8; 0; 53])
    by reflexivity.
  assert (H3 : Example.Conn_Write
                 (Example.StreamConn ("aes-128-gcm", "secret") "down.example:8388")
                 [1; 8; 8; 8; 8; 0; 53] = (0, Some "broken pipe")) by reflexivity.
  repeat (split; [assumption |]).
  exact (ShadowSocks_Generator_write_error Example.Cipher Example.Conn
           Example.net_Dial Example.StreamConn Example.Conn_Write
           _ _ _ _ _ _ _ H1 H2 H3).
Defined.

Lemma serializesSocksAddr_roundtrip_witness :
  socks_address Example.mapped_8888
  ∧ decimal (Port Example.mapped_8888) 8080
  ∧ 8080 <= 65535
  ∧ ∃ bs d,
      serializesSocksAddr Example.mapped_8888 = Returned bs
      ∧ decodeSocksAddr bs = Some (d, 8080, [])
      ∧ same_destination Example.mapped_8888 d.
Proof.
  assert (H1 : socks_address Example.mapped_8888).
  { right. left. split; [reflexivity |]. eexists. split; [reflexivity |].
    eexists. reflexivity. }
  assert (H2 : decimal (Port Example.mapped_8888) 8080) by (split; [discriminate | reflexivity]).
  assert (H3 : 8080 <= 65535) by lia.
  repeat (split; [assumption |]).
  exact (serializesSocksAddr_roundtrip Example.mapped_8888 8080 H1 H2 H3).
Defined.

(** The headers of the three kinds of address, byte by byte. *)
Example serializesSocksAddr_domain :
  serializesSocksAddr Example.notexample_com
  = Returned [3; 14; 110; 111; 116; 101; 120; 97; 109; 112; 108; 101; 46; 99; 111; 109;
              0; 80].
Proof. reflexivity. Qed.

Example serializesSocksAddr_ipv4_mapped :
  serializesSocksAddr Example.mapped_8888 = Returned [1; 8; 8; 8; 8; 31; 144].
Proof. reflexivity. Qed.

Example serializesSocksAddr_ipv6 :
  serializesSocksAddr Example.localhost6
  = Returned [4; 0; 0; 0; 0; 0; 0; 0; 0; 0; 0; 0; 0; 0; 0; 0; 1; 255; 255].
Proof. reflexivity. Qed.

(** An IPv4 address whose IP was never resolved makes the serialisation
    panic. *)
Example serializesSocksAddr_nil_IP :
  serializesSocksAddr (mkAddr 0 socks.AtypIPv4 "8.8.8.8" None "53") = Panicked.
Proof. reflexivity. Qed.

Lemma Subscribe_spec_witness :
  let o := (observable.Subscribe observable.NewObservable).2 in
  observable.reachable o
  ∧ observable.done o = false
  ∧ ∃ sub o',
      observable.Subscribe o = (Some sub, None, o')
      ∧ observable.listener o !! sub = None
      ∧ (sub ∉ observable.closed o')
      ∧ observable.listener o' = <[sub := observable.mkSubscriber sub]> (observable.listener o)
      ∧ size (observable.listener o') = S (size (observable.listener o))
      ∧ observable.closed o' = observable.closed o
      ∧ observable.done o' = false.
Proof.
  intros o.
  assert (Hr : observable.reachable o) by (repeat constructor).
  assert (Hd : observable.done o = false) by reflexivity.
  repeat (split; [assumption |]).
  exact (proj2 (observable.Subscribe_spec o Hr) Hd).
Defined.

(** After [close] the observable is done and takes no subscriber. *)
Example Subscribe_after_close :
  observable.Subscribe (observable.close observable.NewObservable)
  = (None, Some "Observable is closed", observable.close observable.NewObservable).
Proof. reflexivity. Qed.

Lemma UnSubscribe_spec_witness :
  let o := (observable.Subscribe (observable.Subscribe observable.NewObservable).2).2 in
  observable.reachable o
  ∧ observable.listener (observable.UnSubscribe 0%nat o) !! 0%nat = None
  ∧ observable.listener (observable.UnSubscribe 0%nat o) !! 1%nat
    = Some (observable.mkSubscriber 1%nat)
  ∧ observable.closed (observable.UnSubscribe 0%nat o) = observable.closed o ∪ {[0%nat]}
  ∧ observable.listener (observable.UnSubscribe 7%nat o) = observable.listener o
  ∧ observable.closed (observable.UnSubscribe 7%nat o) = observable.closed o.
Proof.
  intros o.
  assert (Hr : observable.reachable o) by (repeat constructor).
  split; [assumption |].
  destruct (observable.UnSubscribe_spec o 0%nat Hr) as [_ Hin].
  destruct (observable.UnSubscribe_spec o 7%nat Hr) as [Hout _].
  destruct Hin as (_ & Hgone & Hothers & Hclosed & _); [by eexists |].
  destruct Hout as (Hl & Hc & _); [reflexivity |].
  split; [exact Hgone |].
  split; [rewrite Hothers by lia; reflexivity |].
  split; [exact Hclosed |].
  split; assumption.
Defined.

(** * More of the code *)

(** ** [serializesSocksAddr]: ports and hosts out of range *)

(** The two port bytes hold the port modulo 65536, whatever the number. *)
Lemma port_bytes_mod p :
  uint8 (Z.shiftr p 8) * 256 + uint8 (Z.land p 255) = p mod 65536.
Proof.
  unfold uint8. rewrite Z.shiftr_div_pow2 by lia.
  change 255 with (Z.ones 8). rewrite Z.land_ones by lia.
  change (2 ^ 8) with 256. rewrite Z.mod_mod by lia.
  change 65536 with (256 * 256). rewrite Z.rem_mul_r by lia. lia.
Qed.

(** X1.  The port of the header is the number [strconv.Atoi] returns for
    the port of the address, its error dropped, modulo 65536: a decimal
    port above 65535 wraps around, and a port on which [Atoi] fails is
    sent as the value that comes with the error, 0 for a syntax error and
    the bound of [int] (hence 65535, or 0 for the lower bound) when the
    digits run out of range. *)
Theorem serializesSocksAddr_port_wraps (addr : Addr) :
  socks_address addr →
  ∃ bs d,
    serializesSocksAddr addr = Returned bs
    ∧ decodeSocksAddr bs = Some (d, (strconv.Atoi (Port addr)).1 mod 65536, [])
    ∧ same_destination addr d.
Proof.
  intros Haddr. unfold serializesSocksAddr.
  destruct (strconv.Atoi (Port addr)) as [p err]. simpl fst.
  destruct Haddr as [[Ht Hlen] | [[Ht (ip & Hip & [ip' Hto])] | [Ht (ip & Hip & [ip' Hto])]]];
    rewrite Ht; simpl Z.eqb; cbv iota.
  - eexists _, _. split; [done |].
    change (uint8 socks.AtypDomainName) with 3.
    unfold uint8 at 1. rewrite Z.mod_small by lia.
    rewrite <- length_bytes_of_string. simpl app.
    by rewrite decode_domain, port_bytes_mod, string_of_bytes_of_string.
  - rewrite Hip, Hto. simpl slice_or_nil.
    destruct (To4_Some _ _ Hto) as [Hl Heq].
    eexists _, _. split; [done |].
    change (uint8 socks.AtypIPv4) with 1. simpl app.
    rewrite decode_ipv4, port_bytes_mod by done.
    split; [done |]. simpl. eauto.
  - rewrite Hip, Hto. simpl slice_or_nil.
    destruct (To16_Some _ _ Hto) as [Hl Heq].
    eexists _, _. split; [done |].
    change (uint8 socks.AtypIPv6) with 4. simpl app.
    rewrite decode_ipv6, port_bytes_mod by done.
    split; [done |]. simpl. eauto.
Qed.

Lemma serializesSocksAddr_port_wraps_witness :
  let addr := mkAddr 0 socks.AtypDomainName "example.com" None "70000" in
  socks_address addr
  ∧ ∃ bs d,
      serializesSocksAddr addr = Returned bs
      ∧ decodeSocksAddr bs = Some (d, 4464, [])
      ∧ same_destination addr d.
Proof.
  intros addr.
  assert (H : socks_address addr) by (left; split; [reflexivity | simpl; lia]).
  split; [exact H |].
  exact (serializesSocksAddr_port_wraps addr H).
Defined.

(** Digits that run out of 64 bits before a byte that is no digit: [Atoi]
    stops at the overflow with the bound of [int], and the port sent is
    65535; with fewer digits the same byte makes it port 0. *)
Example serializesSocksAddr_port_out_of_range :
  serializesSocksAddr
    (mkAddr 0 socks.AtypIPv4 "8.8.8.8" (Some [8; 8; 8; 8]) "99999999999999999999x")
  = Returned [1; 8; 8; 8; 8; 255; 255]
  ∧ serializesSocksAddr (mkAddr 0 socks.AtypIPv4 "8.8.8.8" (Some [8; 8; 8; 8]) "99x")
    = Returned [1; 8; 8; 8; 8; 0; 0].
Proof. split; reflexivity. Qed.

Lemma length_string_of_bytes b : String.length (string_of_bytes b) = length b.
Proof.
  unfold string_of_bytes. induction b as [| z b IH]; simpl; [done | by rewrite IH].
Qed.

(** X2.  A domain name of more than 255 bytes does not survive: its length byte
    is the length modulo 256, so no reading of the header gives the host
    back. *)
Theorem serializesSocksAddr_long_domain (addr : Addr) (bs : list Z) :
  AddrType addr = socks.AtypDomainName →
  (255 < String.length (Host addr))%nat →
  serializesSocksAddr addr = Returned bs →
  ∀ p rest, decodeSocksAddr bs ≠ Some (DstDomain (Host addr), p, rest).
Proof.
  intros Ht Hlong. unfold serializesSocksAddr.
  destruct (strconv.Atoi (Port addr)) as [q err].
  rewrite Ht. simpl Z.eqb. cbv iota. intros [= <-] p rest.
  change (uint8 socks.AtypDomainName) with 3. simpl app.
  unfold decodeSocksAddr.
  set (n := Z.to_nat (uint8 (Z.of_nat (String.length (Host addr))))).
  assert (Hn : (n < String.length (Host addr))%nat).
  { unfold n, uint8.
    pose proof (Z.mod_pos_bound (Z.of_nat (String.length (Host addr))) 256). lia. }
  destruct (length _ <? n)%nat eqn:Hshort; [done |].
  apply Nat.ltb_ge in Hshort.
  destruct (drop n _) as [| hi [| lo rest']]; try done.
  intros [= Hhost _ _].
  apply (f_equal String.length) in Hhost.
  rewrite length_string_of_bytes, length_take in Hhost. lia.
Qed.

Lemma serializesSocksAddr_long_domain_witness :
  let host := String.concat "" (replicate 26 "0123456789") in
  let addr := mkAddr 0 socks.AtypDomainName host None "80" in
  AddrType addr = socks.AtypDomainName
  ∧ (255 < String.length (Host addr))%nat
  ∧ serializesSocksAddr addr
    = Returned ([3; 4] ++ bytes_of_string host ++ [0; 80])
  ∧ ∀ p rest,
      decodeSocksAddr ([3; 4] ++ bytes_of_string host ++ [0; 80])
      ≠ Some (DstDomain (Host addr), p, rest).
Proof.
  intros host addr.
  assert (H1 : AddrType addr = socks.AtypDomainName) by reflexivity.
  assert (H2 : (255 < String.length (Host addr))%nat) by (vm_compute; lia).
  assert (H3 : serializesSocksAddr addr
               = Returned ([3; 4] ++ bytes_of_string host ++ [0; 80]))
    by (vm_compute; reflexivity).
  repeat (split; [assumption |]).
  exact (serializesSocksAddr_long_domain addr _ H1 H2 H3).
Defined.

(** X3.  An address typed IPv4 whose IP is not an IPv4 address, or typed IPv6
    whose IP has neither 4 nor 16 bytes, gets a header without address
    bytes: the type byte and the port only, which cannot be read back. *)
Theorem serializesSocksAddr_wrong_family (addr : Addr) (ip : net.IP) :
  IP addr = Some ip →
  (AddrType addr = socks.AtypIPv4 ∧ net.To4 ip = None)
  ∨ (AddrType addr = socks.AtypIPv6 ∧ net.To16 ip = None) →
  ∃ hi lo,
    serializesSocksAddr addr = Returned [uint8 (AddrType addr); hi; lo]
    ∧ 0 <= hi < 256 ∧ 0 <= lo < 256
    ∧ decodeSocksAddr [uint8 (AddrType addr); hi; lo] = None.
Proof.
  intros Hip Hcase. unfold serializesSocksAddr.
  destruct (strconv.Atoi (Port addr)) as [p err].
  exists (uint8 (Z.shiftr p 8)), (uint8 (Z.land p 255)).
  assert (Hb : ∀ x, 0 <= uint8 x < 256) by (intros x; apply Z.mod_pos_bound; lia).
  destruct Hcase as [[Ht Hto] | [Ht Hto]]; rewrite Ht, Hip, Hto; simpl;
    repeat split; try apply Hb; done.
Qed.

Lemma serializesSocksAddr_wrong_family_witness :
  let ip := [32; 1; 13; 184; 0; 0; 0; 0; 0; 0; 0; 0; 0; 0; 0; 1] in
  let addr := mkAddr 0 socks.AtypIPv4 "2001:db8::1" (Some ip) "443" in
  IP addr = Some ip
  ∧ ((AddrType addr = socks.AtypIPv4 ∧ net.To4 ip = None)
     ∨ (AddrType addr = socks.AtypIPv6 ∧ net.To16 ip = None))
  ∧ ∃ hi lo,
      serializesSocksAddr addr = Returned [uint8 (AddrType addr); hi; lo]
      ∧ 0 <= hi < 256 ∧ 0 <= lo < 256
      ∧ decodeSocksAddr [uint8 (AddrType addr); hi; lo] = None.
Proof.
  intros ip addr.
  assert (H1 : IP addr = Some ip) by reflexivity.
  assert (H2 : (AddrType addr = socks.AtypIPv4 ∧ net.To4 ip = None)
               ∨ (AddrType addr = socks.AtypIPv6 ∧ net.To16 ip = None))
    by (left; split; reflexivity).
  repeat (split; [assumption |]).
  exact (serializesSocksAddr_wrong_family addr ip H1 H2).
Defined.

(** ** [GEOIP.IsMatch] and [Tunnel.match]: edges *)

Section MatchEdges.

Variable Cipher : Type.
Variable Addr_String : Addr → string.
Variable RuleType_String : RuleType → string.

(** X4.  A GEOIP rule needs an IP of 4 or 16 bytes: on any other slice, the
    empty one included, it returns false whatever the reader holds, a
    reader that would make it panic included. *)
Theorem GEOIP_IsMatch_odd_length (g : GEOIP_rule) (addr : Addr) (ip : list Z) :
  IP addr = Some ip →
  length ip ≠ 4%nat →
  length ip ≠ 16%nat →
  ∀ reader, GEOIP_IsMatch reader g addr = Returned false.
Proof.
  intros Hip H4 H16 reader. unfold GEOIP_IsMatch, AddrFromSlice. rewrite Hip.
  apply Nat.eqb_neq in H4, H16. by rewrite H4, H16.
Qed.

(** X5.  Whatever [Tunnel.match] returns, it sends exactly one record, of level
    INFO, and the proxy it returns is one the proxy map holds; it returns
    nil only when the map has nothing under ["DIRECT"]. *)
Theorem match_result_in_map
    (t : Tunnel Cipher) (addr : Addr) (r : option (Proxy Cipher)) (log : list Log) :
  match_ Cipher Addr_String RuleType_String t addr = Returned (r, log) →
  (∃ record, log = [record] ∧ LogType record = INFO)
  ∧ match r with
    | Some a => ∃ name, proxys t !! name = Some a
    | None => proxys t !! "DIRECT" = None
    end.
Proof.
  unfold match_. induction (rules t) as [| rule rest IH]; simpl.
  - intros [= <- <-]. split; [by eexists |].
    destruct (proxys t !! "DIRECT") eqn:Hd; [by eexists | done].
  - destruct (IsMatch rule addr) as [[] |]; [| exact IH | done].
    destruct (proxys t !! Adapter rule) as [a |] eqn:Ha; [| exact IH].
    intros [= <- <-]. split; by eexists.
Qed.

(** X6.  A rule whose predicate panics makes [Tunnel.match] panic when the
    traversal reaches it, that is when no rule before it decides. *)
Theorem match_panics_at_panicking_rule
    (t : Tunnel Cipher) (addr : Addr) (pre post : list Rule) (rule : Rule) :
  rules t = pre ++ rule :: post →
  Forall (misses (proxys t) addr) pre →
  IsMatch rule addr = Panicked →
  match_ Cipher Addr_String RuleType_String t addr = Panicked.
Proof.
  intros Hrules Hpre Hp. unfold match_. rewrite Hrules.
  rewrite match_rules_skip_all by done. simpl. by rewrite Hp.
Qed.

End MatchEdges.

(** A reader that hands back no record. *)
Definition mmdb_nil (ip : list Z) : option Country * option string :=
  (None, Some "wrong database type").

Lemma GEOIP_IsMatch_odd_length_witness :
  let addr := mkAddr 0 socks.AtypDomainName "example.com" (Some []) "80" in
  IP addr = Some []
  ∧ length (@nil Z) ≠ 4%nat
  ∧ length (@nil Z) ≠ 16%nat
  ∧ GEOIP_IsMatch mmdb_nil (mkGEOIP "" "Proxy") addr = Returned false.
Proof.
  intros addr.
  assert (H1 : IP addr = Some []) by reflexivity.
  assert (H2 : length (@nil Z) ≠ 4%nat) by discriminate.
  assert (H3 : length (@nil Z) ≠ 16%nat) by discriminate.
  repeat (split; [assumption |]).
  exact (GEOIP_IsMatch_odd_length (mkGEOIP "" "Proxy") addr [] H1 H2 H3 mmdb_nil).
Defined.

Lemma match_result_in_map_witness :
  Example.match_ Example.tunnel Example.api_blocked_test
  = Returned (Some Reject, [newLog INFO "api.blocked.test match FINAL using REJECT"])
  ∧ (∃ record,
       [newLog INFO "api.blocked.test match FINAL using REJECT"] = [record]
       ∧ LogType record = INFO)
  ∧ ∃ name, proxys Example.tunnel !! name = Some Reject.
Proof.
  assert (H : Example.match_ Example.tunnel Example.api_blocked_test
              = Returned (Some Reject,
                          [newLog INFO "api.blocked.test match FINAL using REJECT"]))
    by reflexivity.
  split; [exact H |].
  exact (match_result_in_map Example.Cipher Example.Addr_String Example.RuleType_String
           Example.tunnel Example.api_blocked_test _ _ H).
Defined.

Lemma match_panics_at_panicking_rule_witness :
  let t : Tunnel Example.Cipher :=
    {| rules := [Example.blocked_rule; NewGEOIP mmdb_nil "CN" "DIRECT";
                 Example.NewFinal "DIRECT"];
       proxys := Example.builtin |} in
  rules t = [Example.blocked_rule] ++ NewGEOIP mmdb_nil "CN" "DIRECT"
            :: [Example.NewFinal "DIRECT"]
  ∧ Forall (misses (proxys t) Example.dns_8888) [Example.blocked_rule]
  ∧ IsMatch (NewGEOIP mmdb_nil "CN" "DIRECT") Example.dns_8888 = Panicked
  ∧ Example.match_ t Example.dns_8888 = Panicked.
Proof.
  intros t.
  assert (H1 : rules t = [Example.blocked_rule] ++ NewGEOIP mmdb_nil "CN" "DIRECT"
                         :: [Example.NewFinal "DIRECT"]) by reflexivity.
  assert (H2 : Forall (misses (proxys t) Example.dns_8888) [Example.blocked_rule]).
  { constructor; [| constructor]. left. reflexivity. }
  assert (H3 : IsMatch (NewGEOIP mmdb_nil "CN" "DIRECT") Example.dns_8888 = Panicked)
    by reflexivity.
  repeat (split; [assumption |]).
  exact (match_panics_at_panicking_rule Example.Cipher Example.Addr_String
           Example.RuleType_String t Example.dns_8888 _ _ _ H1 H2 H3).
Defined.

(** ** [NewShadowSocks], [Direct.Generator] and [Tunnel.handleConn] *)

(** [net.JoinHostPort]: a host with a colon is put in brackets. *)
Definition JoinHostPort (host port : string) : string :=
  if bool_decide (":"%char ∈ list_ascii_of_string host)
  then "[" +:+ host +:+ "]:" +:+ port
  else host +:+ ":" +:+ port.

Section Dispatch.

Variable Cipher : Type.
Variable Conn : Type.
Variable Addr_String : Addr → string.
Variable RuleType_String : RuleType → string.
Variable url_Parse : string → URL + string.
Variable PickCipher : string → string → Cipher + string.
Variable net_Dial : string → Conn + string.

(** [DirectAdapter] of [adapters/direct.go] *)
Record DirectAdapter := mkDirectAdapter {
  DirectAdapter_conn : TrafficTrack Conn
}.

(** [Direct.Generator]: on a failed dial the named results are returned as
    they stand, the adapter nil and the error of the dial. *)
Definition Direct_Generator (addr : Addr) : option DirectAdapter * option string :=
  match net_Dial (JoinHostPort (Addr_String addr) (Port addr)) with
  | inr err => (None, Some err)
  | inl c => (Some (mkDirectAdapter (NewTrafficTrack c)), None)
  end.

(** X7.  [Direct.Generator] returns an adapter or an error, never both and
    never neither, and the adapter wraps the connection dialled to the
    joined host and port. *)
Theorem Direct_Generator_adapter_xor_error (addr : Addr) :
  (∃ c, net_Dial (JoinHostPort (Addr_String addr) (Port addr)) = inl c
        ∧ Direct_Generator addr = (Some (mkDirectAdapter (NewTrafficTrack c)), None))
  ∨ (∃ e, net_Dial (JoinHostPort (Addr_String addr) (Port addr)) = inr e
          ∧ Direct_Generator addr = (None, Some e)).
Proof.
  unfold Direct_Generator.
  destruct (net_Dial _) as [c | e]; [left | right]; by eexists.
Qed.

(** X8.  A URL that [url.Parse] refuses is not refused by [NewShadowSocks]: the
    error is dropped, the cipher named by the empty string is asked for
    with an empty password, and what comes back is a proxy for the empty
    server or the error of [core.PickCipher], which does not mention the
    URL. *)
Theorem NewShadowSocks_unparsable_URL (name ssURL e : string) :
  url_Parse ssURL = inr e →
  NewShadowSocks Cipher url_Parse PickCipher name ssURL
  = match PickCipher "" "" with
    | inl ciph => inl (ShadowSocks "" name ciph)
    | inr err => inr ("ss  initialize error: " +:+ err)
    end.
Proof.
  intros Hparse. unfold NewShadowSocks, parseURL. rewrite Hparse.
  by destruct (PickCipher "" "").
Qed.

(** *** [Tunnel.handleConn] *)

(** [C.ProxyAdapter] values and [proxy.Generator(addr)] for the proxies of
    the map. *)
Variable ProxyAdapter : Type.
Variable Proxy_Generator :
  Proxy Cipher → Addr → Outcome (option ProxyAdapter * option string).

(** What [handleConn] does to the world, in order. *)
Inductive Event :=
| Log_sent (record : Log)
| Local_Connect (remoConn : ProxyAdapter)
| Remote_Close (remoConn : ProxyAdapter)
| Local_Close.

(** [Tunnel.handleConn] for a connection whose [Addr()] is [addr]: the
    events and whether it returns.  The deferred calls run on every way
    out, a panic included; calling [Generator] on a nil proxy and
    deferring [Close] on a nil adapter panic; [localConn.Connect] is taken
    to return. *)
Definition handleConn (t : Tunnel Cipher) (addr : Addr) : list Event * Outcome () :=
  match match_ Cipher Addr_String RuleType_String t addr with
  | Panicked => ([Local_Close], Panicked)
  | Returned (proxy, logs) =>
    let sent := Log_sent <$> logs in
    match proxy with
    | None => (sent ++ [Local_Close], Panicked)
    | Some p =>
      match Proxy_Generator p addr with
      | Panicked => (sent ++ [Local_Close], Panicked)
      | Returned (_, Some err) =>
        (sent ++ [Log_sent (newLog WARNING ("Proxy connect error: " +:+ err));
                  Local_Close],
         Returned ())
      | Returned (None, None) => (sent ++ [Local_Close], Panicked)
      | Returned (Some remoConn, None) =>
        (sent ++ [Local_Connect remoConn; Remote_Close remoConn; Local_Close],
         Returned ())
      end
    end
  end.

Lemma Local_Close_not_sent (logs : list Log) : Local_Close ∉ Log_sent <$> logs.
Proof. intros (l & Heq & _)%list_elem_of_fmap. discriminate Heq. Qed.

(** X9.  On every way out of [handleConn], a panic included, the inbound
    connection is closed exactly once, and that is the last thing done. *)
Theorem handleConn_closes_local_once (t : Tunnel Cipher) (addr : Addr) :
  ∃ before,
    (handleConn t addr).1 = before ++ [Local_Close]
    ∧ Local_Close ∉ before.
Proof.
  unfold handleConn.
  destruct (match_ _ _ _ t addr) as [[proxy logs] |]; [| exists []; split; [done | set_solver]].
  pose proof (Local_Close_not_sent logs) as Hlogs.
  destruct proxy as [p |]; [| by eexists].
  destruct (Proxy_Generator p addr) as [[[remo |] [err |]] |]; simpl.
  - exists ((Log_sent <$> logs) ++ [Log_sent (newLog WARNING ("Proxy connect error: " +:+ err))]).
    split; [by rewrite <- app_assoc |].
    rewrite elem_of_app, list_elem_of_singleton. by intros [? | ?].
  - exists ((Log_sent <$> logs) ++ [Local_Connect remo; Remote_Close remo]).
    split; [by rewrite <- app_assoc |].
    rewrite elem_of_app, !elem_of_cons, elem_of_nil. by intros [? | [? | [? | ?]]].
  - exists ((Log_sent <$> logs) ++ [Log_sent (newLog WARNING ("Proxy connect error: " +:+ err))]).
    split; [by rewrite <- app_assoc |].
    rewrite elem_of_app, list_elem_of_singleton. by intros [? | ?].
  - by eexists.
  - by eexists.
Qed.

(** An event that touches no outbound adapter. *)
Definition quiet (e : Event) : Prop :=
  match e with
  | Local_Connect _ | Remote_Close _ => False
  | _ => True
  end.

Lemma quiet_sent (logs : list Log) : Forall quiet (Log_sent <$> logs).
Proof. apply Forall_fmap, Forall_true. done. Qed.

(** Either the chosen proxy generated an adapter with a nil error, and
    the adapter is connected and then closed, or no outbound adapter is
    touched. *)
Lemma handleConn_cases (t : Tunnel Cipher) (addr : Addr) :
  (∃ p logs remoConn,
      match_ Cipher Addr_String RuleType_String t addr = Returned (Some p, logs)
      ∧ Proxy_Generator p addr = Returned (Some remoConn, None)
      ∧ (handleConn t addr).1
        = (Log_sent <$> logs) ++ [Local_Connect remoConn; Remote_Close remoConn; Local_Close])
  ∨ ((∀ p logs remoConn,
        match_ Cipher Addr_String RuleType_String t addr = Returned (Some p, logs) →
        Proxy_Generator p addr ≠ Returned (Some remoConn, None))
     ∧ Forall quiet (handleConn t addr).1).
Proof.
  unfold handleConn.
  destruct (match_ _ _ _ t addr) as [[[p |] logs] |].
  - destruct (Proxy_Generator p addr) as [[[remo |] [err |]] |] eqn:Hg; simpl.
    + right. split; [by intros p' logs' r [= <- <-]; rewrite Hg |].
      apply Forall_app. split; [apply quiet_sent | by repeat constructor].
    + left. by eexists _, _, _.
    + right. split; [by intros p' logs' r [= <- <-]; rewrite Hg |].
      apply Forall_app. split; [apply quiet_sent | by repeat constructor].
    + right. split; [by intros p' logs' r [= <- <-]; rewrite Hg |].
      apply Forall_app. split; [apply quiet_sent | by repeat constructor].
    + right. split; [by intros p' logs' r [= <- <-]; rewrite Hg |].
      apply Forall_app. split; [apply quiet_sent | by repeat constructor].
  - right. split; [done |]. simpl.
    apply Forall_app. split; [apply quiet_sent | by repeat constructor].
  - right. split; [done |]. by repeat constructor.
Qed.

(** X10.  [handleConn] connects and closes an outbound adapter exactly when the
    proxy that [match] chose generated it with a nil error.  An adapter
    that comes with an error, as [ShadowSocks.Generator] returns after a
    failed write, is neither connected nor closed. *)
Theorem handleConn_remote_closed_iff
    (t : Tunnel Cipher) (addr : Addr) (remoConn : ProxyAdapter) :
  (Remote_Close remoConn ∈ (handleConn t addr).1
   ↔ ∃ p logs,
       match_ Cipher Addr_String RuleType_String t addr = Returned (Some p, logs)
       ∧ Proxy_Generator p addr = Returned (Some remoConn, None))
  ∧ (Local_Connect remoConn ∈ (handleConn t addr).1
     ↔ Remote_Close remoConn ∈ (handleConn t addr).1).
Proof.
  destruct (handleConn_cases t addr)
    as [(p & logs & r & Hm & Hg & ->) | [Hno Hquiet]].
  - pose proof (quiet_sent logs) as Hq. rewrite Forall_forall in Hq.
    assert (Hrc : Remote_Close remoConn
                  ∈ (Log_sent <$> logs) ++ [Local_Connect r; Remote_Close r; Local_Close]
                  ↔ remoConn = r).
    { rewrite elem_of_app, !elem_of_cons, elem_of_nil. split.
      - intros [Hin | [[=] | [[= ->] | [[=] | []]]]]; [by apply Hq in Hin | done].
      - intros ->. right. right. by left. }
    assert (Hlc : Local_Connect remoConn
                  ∈ (Log_sent <$> logs) ++ [Local_Connect r; Remote_Close r; Local_Close]
                  ↔ remoConn = r).
    { rewrite elem_of_app, !elem_of_cons, elem_of_nil. split.
      - intros [Hin | [[= ->] | [[=] | [[=] | []]]]]; [by apply Hq in Hin | done].
      - intros ->. right. by left. }
    split; [| by rewrite Hrc, Hlc].
    rewrite Hrc. split.
    + intros ->. by eexists _, _.
    + intros (p' & logs' & Hm' & Hg'). rewrite Hm in Hm'.
      injection Hm' as <- <-. rewrite Hg in Hg'. by injection Hg' as ->.
  - rewrite Forall_forall in Hquiet. split; split.
    + by intros Hin%Hquiet.
    + intros (p & logs & Hm & Hg). by destruct (Hno p logs remoConn Hm).
    + by intros Hin%Hquiet.
    + by intros Hin%Hquiet.
Qed.

(** X11.  When the proxy that [match] chose fails to generate, [handleConn] sends
    one WARNING record with the error after the record of the match,
    closes the inbound connection and returns. *)
Theorem handleConn_generator_error
    (t : Tunnel Cipher) (addr : Addr) (p : Proxy Cipher) (logs : list Log)
    (remoConn : option ProxyAdapter) (err : string) :
  match_ Cipher Addr_String RuleType_String t addr = Returned (Some p, logs) →
  Proxy_Generator p addr = Returned (remoConn, Some err) →
  handleConn t addr
  = ((Log_sent <$> logs)
       ++ [Log_sent (newLog WARNING ("Proxy connect error: " +:+ err)); Local_Close],
     Returned ()).
Proof.
  intros Hm Hg. unfold handleConn. rewrite Hm, Hg. by destruct remoConn.
Qed.

(** X12.  When no rule decides and the proxy map has nothing under ["DIRECT"],
    as on a tunnel whose configuration was never loaded, [match] returns
    nil and [handleConn] panics on it, after the record of [match] and
    with the inbound connection closed. *)
Theorem handleConn_nil_proxy_panics (t : Tunnel Cipher) (addr : Addr) :
  Forall (misses (proxys t) addr) (rules t) →
  proxys t !! "DIRECT" = None →
  handleConn t addr
  = ([Log_sent (log_no_match Addr_String addr); Local_Close], Panicked).
Proof.
  intros Hall Hd. unfold handleConn, match_.
  rewrite <- (app_nil_r (rules t)), match_rules_skip_all by done.
  simpl. by rewrite Hd.
Qed.

End Dispatch.

Arguments Log_sent {ProxyAdapter} record.
Arguments Local_Connect {ProxyAdapter} remoConn.
Arguments Remote_Close {ProxyAdapter} remoConn.
Arguments Local_Close {ProxyAdapter}.

(** Outbound adapters of the example network: one that holds a
    connection, and the one of the rejecting proxy, which holds none. *)
Inductive Example_Adapter :=
| Over (c : TrafficTrack Example.Conn)
| Rejecting.

(** An instance of [proxy.Generator] over the example network; a group
    has no member to delegate to. *)
Definition Example_Generator (p : Proxy Example.Cipher) (addr : Addr)
  : Outcome (option Example_Adapter * option string) :=
  match p with
  | Direct =>
    let '(adapter, err) :=
      Direct_Generator Example.Conn Example.Addr_String Example.net_Dial addr in
    Returned (Over ∘ DirectAdapter_conn Example.Conn <$> adapter, err)
  | ShadowSocks server _ cipher =>
    match Example.Generator server cipher addr with
    | Returned (adapter, err) => Returned (Over ∘ conn Example.Conn <$> adapter, err)
    | Panicked => Panicked
    end
  | Reject => Returned (Some Rejecting, None)
  | URLTest _ _ _ _ => Returned (None, Some "no member")
  end.

Definition Example_handleConn :=
  handleConn Example.Cipher Example.Addr_String Example.RuleType_String
    Example_Adapter Example_Generator.

(** A snapshot that sends everything through a server that fails every
    write. *)
Definition tunnel_down : Tunnel Example.Cipher :=
  {| rules := [Example.NewFinal "ss1"];
     proxys := <["ss1" := ShadowSocks "down.example:8388" "ss1" ("aes-128-gcm", "secret")]>
                 Example.builtin |}.

Lemma NewShadowSocks_unparsable_URL_witness :
  Example.url_Parse "example.com:8388" = inr "missing protocol scheme"
  ∧ NewShadowSocks Example.Cipher Example.url_Parse Example.PickCipher
      "ss1" "example.com:8388"
    = inr "ss  initialize error: cipher not supported".
Proof.
  assert (H : Example.url_Parse "example.com:8388" = inr "missing protocol scheme")
    by reflexivity.
  split; [exact H |].
  exact (NewShadowSocks_unparsable_URL Example.Cipher Example.url_Parse
           Example.PickCipher "ss1" _ _ H).
Defined.

Lemma handleConn_generator_error_witness :
  Example.match_ tunnel_down Example.dns_8888
  = Returned (Some (ShadowSocks "down.example:8388" "ss1" ("aes-128-gcm", "secret")),
              [newLog INFO "8.8.8.8 match FINAL using ss1"])
  ∧ Example_Generator
      (ShadowSocks "down.example:8388" "ss1" ("aes-128-gcm", "secret")) Example.dns_8888
    = Returned (Some (Over (NewTrafficTrack "down.example:8388")), Some "broken pipe")
  ∧ Example_handleConn tunnel_down Example.dns_8888
    = ([Log_sent (newLog INFO "8.8.8.8 match FINAL using ss1");
        Log_sent (newLog WARNING "Proxy connect error: broken pipe");
        Local_Close],
       Returned ()).
Proof.
  assert (H1 : Example.match_ tunnel_down Example.dns_8888
               = Returned (Some (ShadowSocks "down.example:8388" "ss1"
                                   ("aes-128-gcm", "secret")),
                           [newLog INFO "8.8.8.8 match FINAL using ss1"]))
    by reflexivity.
  assert (H2 : Example_Generator
                 (ShadowSocks "down.example:8388" "ss1" ("aes-128-gcm", "secret"))
                 Example.dns_8888
               = Returned (Some (Over (NewTrafficTrack "down.example:8388")), Some "broken pipe"))
    by reflexivity.
  repeat (split; [assumption |]).
  exact (handleConn_generator_error Example.Cipher Example.Addr_String
           Example.RuleType_String Example_Adapter Example_Generator
           tunnel_down Example.dns_8888 _ _ _ _ H1 H2).
Defined.

Lemma handleConn_nil_proxy_panics_witness :
  Forall (misses (proxys Example.newTunnel) Example.dns_8888) (rules Example.newTunnel)
  ∧ proxys Example.newTunnel !! "DIRECT" = None
  ∧ Example_handleConn Example.newTunnel Example.dns_8888
    = ([Log_sent (newLog INFO "8.8.8.8 doesn't match any rule using DIRECT");
        Local_Close],
       Panicked).
Proof.
  assert (H1 : Forall (misses (proxys Example.newTunnel) Example.dns_8888)
                      (rules Example.newTunnel)) by constructor.
  assert (H2 : proxys Example.newTunnel !! "DIRECT" = None) by reflexivity.
  repeat (split; [assumption |]).
  exact (handleConn_nil_proxy_panics Example.Cipher Example.Addr_String
           Example.RuleType_String Example_Adapter Example_Generator
           Example.newTunnel Example.dns_8888 H1 H2).
Defined.

(** ** [Tunnel.UpdateConfig]: what a reload keeps and what it drops *)

Section Reload.

Variable Cipher : Type.
Variable mmdb_Country : list Z → option Country * option string.
Variable url_Parse : string → URL + string.
Variable PickCipher : string → string → Cipher + string.
Variable trimArr : list string → list string.
Variable NewDomainSuffix : string → string → Rule.
Variable NewDomainKeyword : string → string → Rule.
Variable NewIPCIDR : string → string → Rule.
Variable NewFinal : string → Rule.
Variable NewURLTest : string → list (Proxy Cipher) → string → Z → Proxy Cipher + string.

Local Abbreviation parse_proxys' := (parse_proxys Cipher url_Parse PickCipher trimArr).
Local Abbreviation parse_rules' :=
  (parse_rules mmdb_Country trimArr NewDomainSuffix NewDomainKeyword NewIPCIDR NewFinal).
Local Abbreviation parse_groups' := (parse_groups Cipher trimArr NewURLTest).
Local Abbreviation UpdateConfig' :=
  (UpdateConfig Cipher mmdb_Country url_Parse PickCipher trimArr NewDomainSuffix
     NewDomainKeyword NewIPCIDR NewFinal NewURLTest).

(** *** The snapshot installed *)

(** The loops over [[Proxy]] and [[Proxy Group]] bind names of their keys
    only. *)
Lemma parse_proxys_names keys ps ps' k :
  parse_proxys' keys ps = Returned (inl ps') →
  is_Some (ps' !! k) →
  is_Some (ps !! k) ∨ k ∈ Name <$> keys.
Proof.
  revert ps. induction keys as [| key keys IH]; intros ps; simpl.
  - intros [= <-]. by left.
  - intros H Hk. rewrite elem_of_cons.
    unfold index in H.
    repeat (case_match; simpl in H; try discriminate H);
      try (destruct (IH _ H Hk) as [? | ?]; by auto).
    destruct (IH _ H Hk) as [Hin | ?]; [| by auto].
    destruct (decide (Name key = k)) as [<- | Hne]; [by auto |].
    rewrite lookup_insert_ne in Hin by done. by auto.
Qed.

Lemma parse_groups_names keys ps ps' k :
  parse_groups' keys ps = Returned (inl ps') →
  is_Some (ps' !! k) →
  is_Some (ps !! k) ∨ k ∈ Name <$> keys.
Proof.
  revert ps. induction keys as [| key keys IH]; intros ps; simpl.
  - intros [= <-]. by left.
  - intros H Hk. rewrite elem_of_cons.
    unfold index in H.
    repeat (case_match; simpl in H; try discriminate H);
      try (destruct (IH _ H Hk) as [? | ?]; by auto).
    destruct (IH _ H Hk) as [Hin | ?]; [| by auto].
    destruct (decide (Name key = k)) as [<- | Hne]; [by auto |].
    rewrite lookup_insert_ne in Hin by done. by auto.
Qed.

(** X13.  After a reload without error, every name of the proxy map is
    ["DIRECT"], ["REJECT"], the name of an entry of [[Proxy]] or the name
    of an entry of [[Proxy Group]]: nothing of the snapshot before is
    carried over. *)
Theorem UpdateConfig_proxy_names
    (cfg : Config) (t t' : Tunnel Cipher) (closed : list (Proxy Cipher)) (k : string) :
  UpdateConfig' (inl cfg) t = Returned (None, t', closed) →
  is_Some (proxys t' !! k) →
  k = "DIRECT" ∨ k = "REJECT"
  ∨ k ∈ Name <$> Section_Proxy cfg
  ∨ k ∈ Name <$> Section_ProxyGroup cfg.
Proof.
  unfold UpdateConfig. intros H Hk.
  destruct (parse_proxys _ _ _ _ _ _) as [[ps | e] |] eqn:Hp; simpl in H; try done.
  destruct (parse_rules _ _ _ _ _ _ _ _) as [rs |]; simpl in H; try done.
  destruct (parse_groups _ _ _ _ _) as [[ps' | e] |] eqn:Hg; simpl in H; try done.
  injection H as <- _. simpl in Hk.
  destruct (decide (k = "REJECT")) as [-> | Hr]; [by auto |].
  destruct (decide (k = "DIRECT")) as [-> | Hd]; [by auto |].
  rewrite !lookup_insert_ne in Hk by done.
  destruct (parse_groups_names _ _ _ _ Hg Hk) as [Hin | ?]; [| by auto].
  destruct (parse_proxys_names _ _ _ _ Hp Hin) as [Hin' | ?]; [| by auto].
  rewrite lookup_empty in Hin'. by destruct Hin'.
Qed.

(** X14.  A reload without error installs a snapshot that depends on the file
    alone, not on the snapshot it replaces, and calls [Close] on exactly
    the groups of the proxy map it replaces. *)
Theorem UpdateConfig_replaces_snapshot
    (getConfig : Config + string) (t t' : Tunnel Cipher) (closed : list (Proxy Cipher)) :
  UpdateConfig' getConfig t = Returned (None, t', closed) →
  (∀ t2, ∃ closed2, UpdateConfig' getConfig t2 = Returned (None, t', closed2))
  ∧ (∀ p, p ∈ closed ↔ isURLTest Cipher p = true ∧ ∃ name, proxys t !! name = Some p).
Proof.
  unfold UpdateConfig. intros H.
  destruct getConfig as [cfg | e]; [| done].
  destruct (parse_proxys _ _ _ _ _ _) as [[ps | e] |]; simpl in *; try done.
  destruct (parse_rules _ _ _ _ _ _ _ _) as [rs |]; simpl in *; try done.
  destruct (parse_groups _ _ _ _ _) as [[ps' | e] |]; simpl in *; try done.
  injection H as <- <-. split; [by eexists |].
  intros p. rewrite list_elem_of_filter, list_elem_of_fmap. split.
  - intros [Hu ([name p'] & -> & Hin)]. apply elem_of_map_to_list in Hin.
    split; [done | by exists name].
  - intros [Hu [name Hin]]. split; [done |].
    exists (name, p). split; [done | by apply elem_of_map_to_list].
Qed.

(** Case analysis on what one key holds, leaving the rest of the loop
    alone. *)
Ltac key_cases :=
  repeat match goal with
         | |- context [match ?x with _ => _ end] =>
           lazymatch x with
           | context [parse_rules] => fail
           | _ => destruct x eqn:?; simpl; try done
           end
         end.

(** The loop over [[Rule]] adds to the rules it is given, at the end. *)
Lemma parse_rules_acc keys (a b : list Rule) :
  parse_rules' keys (a ++ b)
  = match parse_rules' keys b with
    | Returned rs => Returned (a ++ rs)
    | Panicked => Panicked
    end.
Proof.
  revert b. induction keys as [| key keys IH]; intros b; simpl; [done |].
  unfold index. key_cases; rewrite <- ?app_assoc; apply IH.
Qed.

(** The loop over two runs of keys is the loop over the first, then the
    loop over the second. *)
Lemma parse_rules_app ks1 ks2 rs :
  parse_rules' (ks1 ++ ks2) rs
  = match parse_rules' ks1 rs with
    | Returned rs1 => parse_rules' ks2 rs1
    | Panicked => Panicked
    end.
Proof.
  revert rs. induction ks1 as [| key ks1 IH]; intros rs; simpl; [done |].
  unfold index. key_cases; apply IH.
Qed.

Lemma parse_rules_length keys rs rs' :
  parse_rules' keys rs = Returned rs' → (length rs' ≤ length rs + length keys)%nat.
Proof.
  revert rs. induction keys as [| key keys IH]; intros rs; simpl.
  - intros [= <-]. lia.
  - unfold index. intros H.
    repeat (case_match; simpl in H; try discriminate H);
      apply IH in H; rewrite ?length_app in H; simpl in H; lia.
Qed.

(** X15.  The rules a reload installs are in the order of the file: for a
    [[Rule]] section cut in two anywhere, they are the rules of the first
    part followed by the rules of the second; and there is at most one
    rule for each key. *)
Theorem UpdateConfig_rules_in_file_order
    (cfg : Config) (t t' : Tunnel Cipher) (closed : list (Proxy Cipher))
    (ks1 ks2 : list Key) :
  UpdateConfig' (inl cfg) t = Returned (None, t', closed) →
  Section_Rule cfg = ks1 ++ ks2 →
  ∃ rs1 rs2,
    parse_rules' ks1 [] = Returned rs1
    ∧ parse_rules' ks2 [] = Returned rs2
    ∧ rules t' = rs1 ++ rs2
    ∧ (length rs1 ≤ length ks1)%nat
    ∧ (length rs2 ≤ length ks2)%nat.
Proof.
  unfold UpdateConfig. intros H Hcut.
  destruct (parse_proxys _ _ _ _ _ _) as [[ps | e] |]; simpl in H; try done.
  destruct (parse_rules _ _ _ _ _ _ _ _) as [rs |] eqn:Hr; simpl in H; try done.
  destruct (parse_groups _ _ _ _ _) as [[ps' | e] |]; simpl in H; try done.
  injection H as <- _. simpl.
  rewrite Hcut, parse_rules_app in Hr.
  destruct (parse_rules _ _ _ _ _ _ ks1 []) as [rs1 |] eqn:H1; [| done].
  rewrite <- (app_nil_r rs1), parse_rules_acc in Hr.
  destruct (parse_rules _ _ _ _ _ _ ks2 []) as [rs2 |] eqn:H2; [| done].
  injection Hr as <-. exists rs1, rs2.
  apply parse_rules_length in H1, H2. simpl in *. by repeat split.
Qed.

(** *** No panic *)

Hypothesis trimArr_length : ∀ l, length (trimArr l) = length l.

Lemma parse_proxys_returns keys ps : parse_proxys' keys ps ≠ Panicked.
Proof.
  revert ps. induction keys as [| key keys IH]; intros ps; [done |].
  destruct (parse_proxys_turn Cipher url_Parse PickCipher trimArr key keys ps
              trimArr_length) as [[ps' ->] | [e ->]]; [apply IH | done].
Qed.

Lemma parse_rules_turn key keys rs :
  parse_rules' (key :: keys) rs = parse_rules' keys rs
  ∨ ∃ r, parse_rules' (key :: keys) rs = parse_rules' keys (rs ++ [r]).
Proof.
  simpl.
  pose proof (trimArr_length (strings.Split (Name key) ",")) as Hl.
  destruct (length (strings.Split (Name key) ",") <? 3)%nat eqn:Hthree; [by left |].
  apply Nat.ltb_ge in Hthree.
  destruct (trimArr (strings.Split (Name key) ",")) as [| kind [| r1 [| r2 rest]]];
    simpl in Hl; try lia.
  unfold index. simpl lookup. simpl obind.
  repeat (match goal with |- context [if ?b then _ else _] => destruct b end;
          [right; by eexists |]).
  by left.
Qed.

Lemma parse_rules_returns keys rs : parse_rules' keys rs ≠ Panicked.
Proof.
  revert rs. induction keys as [| key keys IH]; intros rs; [done |].
  destruct (parse_rules_turn key keys rs) as [-> | [r ->]]; apply IH.
Qed.

Lemma parse_groups_turn key keys ps :
  (∃ ps', parse_groups' (key :: keys) ps = parse_groups' keys ps')
  ∨ (∃ e, parse_groups' (key :: keys) ps = Returned (inr e)).
Proof.
  simpl.
  pose proof (trimArr_length (strings.Split (Value key) ",")) as Hl.
  destruct (length (strings.Split (Value key) ",") <? 4)%nat eqn:Hfour;
    [left; by eexists |].
  apply Nat.ltb_ge in Hfour.
  destruct (trimArr (strings.Split (Value key) ",")) as [| kind l] eqn:Htrim;
    simpl in Hl; [lia |].
  unfold index at 1. simpl lookup. simpl obind.
  destruct (String.eqb kind "url-test"); [| left; by eexists].
  destruct (S (length l) <? 3)%nat eqn:Hthree; [apply Nat.ltb_lt in Hthree; lia |].
  destruct (lookup_lt_is_Some_2 (kind :: l) (length l - 0)) as [last Hlast];
    [simpl; lia |].
  destruct (lookup_lt_is_Some_2 (kind :: l) (length l - 1)) as [url Hurl];
    [simpl; lia |].
  unfold index. rewrite Hlast. simpl obind.
  destruct (strconv.Atoi last) as [delay err]. rewrite Hurl. simpl obind.
  destruct (NewURLTest _ _ _ _); [left | right]; by eexists.
Qed.

Lemma parse_groups_returns keys ps : parse_groups' keys ps ≠ Panicked.
Proof.
  revert ps. induction keys as [| key keys IH]; intros ps; [done |].
  destruct (parse_groups_turn key keys ps) as [[ps' ->] | [e ->]]; [apply IH | done].
Qed.

(** X16.  The index and slice expressions of [UpdateConfig] itself never
    run out of range: provided [trimArr] keeps the number of fields, and
    provided every function it calls returns (the rule constructors,
    [NewURLTest], [core.PickCipher] and [url.Parse] are functions here, so
    they return by their type; one of them panicking is outside this
    statement), [UpdateConfig] returns, with or without an error, on every
    configuration file, however short or odd its entries. *)
Theorem UpdateConfig_never_panics (getConfig : Config + string) (t : Tunnel Cipher) :
  ∃ err t' closed, UpdateConfig' getConfig t = Returned (err, t', closed).
Proof.
  unfold UpdateConfig. destruct getConfig as [cfg | e]; [| by eexists _, _, _].
  pose proof (parse_proxys_returns (Section_Proxy cfg) ∅) as Hp.
  destruct (parse_proxys _ _ _ _ _ _) as [[ps | e] |]; [| by eexists _, _, _ | done].
  simpl.
  pose proof (parse_rules_returns (Section_Rule cfg) []) as Hr.
  destruct (parse_rules _ _ _ _ _ _ _ _) as [rs |]; [| done]. simpl.
  pose proof (parse_groups_returns (Section_ProxyGroup cfg) ps) as Hg.
  destruct (parse_groups _ _ _ _ _) as [[ps' | e] |]; [| by eexists _, _, _ | done].
  by eexists _, _, _.
Qed.

End Reload.

Definition installed_by_config_overrides_DIRECT : Tunnel Example.Cipher :=
  {| rules := [Example.NewDomainSuffix "blocked.test" "REJECT"; Example.NewFinal "DIRECT"];
     proxys := Example.builtin |}.

Lemma UpdateConfig_proxy_names_witness :
  Example.UpdateConfig (inl Example.config_overrides_DIRECT) Example.newTunnel
  = Returned (None, installed_by_config_overrides_DIRECT, [])
  ∧ is_Some (proxys installed_by_config_overrides_DIRECT !! "REJECT")
  ∧ ("REJECT" = "DIRECT" ∨ "REJECT" = "REJECT"
     ∨ "REJECT" ∈ Name <$> Section_Proxy Example.config_overrides_DIRECT
     ∨ "REJECT" ∈ Name <$> Section_ProxyGroup Example.config_overrides_DIRECT).
Proof.
  assert (H1 : Example.UpdateConfig (inl Example.config_overrides_DIRECT) Example.newTunnel
               = Returned (None, installed_by_config_overrides_DIRECT, []))
    by (vm_compute; reflexivity).
  assert (H2 : is_Some (proxys installed_by_config_overrides_DIRECT !! "REJECT"))
    by (by eexists).
  repeat (split; [assumption |]).
  exact (UpdateConfig_proxy_names Example.Cipher Example.mmdb_Country Example.url_Parse
           Example.PickCipher Example.trimArr Example.NewDomainSuffix
           Example.NewDomainKeyword Example.NewIPCIDR Example.NewFinal Example.NewURLTest
           _ _ _ _ _ H1 H2).
Defined.

(** A snapshot with a group, to be replaced. *)
Definition tunnel_with_group : Tunnel Example.Cipher :=
  {| rules := [Example.NewFinal "auto"];
     proxys := <["auto" := URLTest "auto" [Direct] "http://probe/" 1000000000]>
                 Example.builtin |}.

Lemma UpdateConfig_replaces_snapshot_witness :
  Example.UpdateConfig (inl Example.config_overrides_DIRECT) tunnel_with_group
  = Returned (None, installed_by_config_overrides_DIRECT,
              [URLTest "auto" [Direct] "http://probe/" 1000000000])
  ∧ (∃ closed2,
       Example.UpdateConfig (inl Example.config_overrides_DIRECT) Example.tunnel
       = Returned (None, installed_by_config_overrides_DIRECT, closed2))
  ∧ (URLTest "auto" [Direct] "http://probe/" 1000000000
       ∈ [URLTest (Cipher:=Example.Cipher) "auto" [Direct] "http://probe/" 1000000000]
     ↔ isURLTest Example.Cipher (URLTest "auto" [Direct] "http://probe/" 1000000000) = true
       ∧ ∃ name, proxys tunnel_with_group !! name
                 = Some (URLTest "auto" [Direct] "http://probe/" 1000000000)).
Proof.
  assert (H : Example.UpdateConfig (inl Example.config_overrides_DIRECT) tunnel_with_group
              = Returned (None, installed_by_config_overrides_DIRECT,
                          [URLTest "auto" [Direct] "http://probe/" 1000000000]))
    by (vm_compute; reflexivity).
  split; [exact H |].
  destruct (UpdateConfig_replaces_snapshot Example.Cipher Example.mmdb_Country
              Example.url_Parse Example.PickCipher Example.trimArr Example.NewDomainSuffix
              Example.NewDomainKeyword Example.NewIPCIDR Example.NewFinal
              Example.NewURLTest _ _ _ _ H) as [Hany Hclosed].
  split; [apply Hany | apply Hclosed].
Defined.

Lemma UpdateConfig_rules_in_file_order_witness :
  Example.UpdateConfig (inl Example.config_overrides_DIRECT) Example.newTunnel
  = Returned (None, installed_by_config_overrides_DIRECT, [])
  ∧ Section_Rule Example.config_overrides_DIRECT
    = [mkKey "DOMAIN-SUFFIX,blocked.test,REJECT" ""] ++ [mkKey "FINAL,,DIRECT" ""]
  ∧ ∃ rs1 rs2,
      parse_rules Example.mmdb_Country Example.trimArr Example.NewDomainSuffix
        Example.NewDomainKeyword Example.NewIPCIDR Example.NewFinal
        [mkKey "DOMAIN-SUFFIX,blocked.test,REJECT" ""] [] = Returned rs1
      ∧ parse_rules Example.mmdb_Country Example.trimArr Example.NewDomainSuffix
          Example.NewDomainKeyword Example.NewIPCIDR Example.NewFinal
          [mkKey "FINAL,,DIRECT" ""] [] = Returned rs2
      ∧ rules installed_by_config_overrides_DIRECT = rs1 ++ rs2
      ∧ (length rs1 ≤ 1)%nat
      ∧ (length rs2 ≤ 1)%nat.
Proof.
  assert (H1 : Example.UpdateConfig (inl Example.config_overrides_DIRECT) Example.newTunnel
               = Returned (None, installed_by_config_overrides_DIRECT, []))
    by (vm_compute; reflexivity).
  assert (H2 : Section_Rule Example.config_overrides_DIRECT
               = [mkKey "DOMAIN-SUFFIX,blocked.test,REJECT" ""] ++ [mkKey "FINAL,,DIRECT" ""])
    by reflexivity.
  repeat (split; [assumption |]).
  exact (UpdateConfig_rules_in_file_order Example.Cipher Example.mmdb_Country
           Example.url_Parse Example.PickCipher Example.trimArr Example.NewDomainSuffix
           Example.NewDomainKeyword Example.NewIPCIDR Example.NewFinal Example.NewURLTest
           _ _ _ _ _ _ H1 H2).
Defined.

(** A file whose entries are all too short or of no known kind. *)
Definition config_odd : Config :=
  {| Section_Proxy := [mkKey "a" ""; mkKey "b" "ss"; mkKey "c" "vmess,x,1,2,3"];
     Section_Rule := [mkKey "FINAL,DIRECT" ""; mkKey ",," ""; mkKey "MATCH,a,b,c" ""];
     Section_ProxyGroup := [mkKey "g" "url-test,,,"; mkKey "h" "select,a,b,c"] |}.

Lemma UpdateConfig_never_panics_witness :
  (∀ l, length (Example.trimArr l) = length l)
  ∧ ∃ err t' closed,
      Example.UpdateConfig (inl config_odd) Example.tunnel = Returned (err, t', closed).
Proof.
  split; [exact Example.trimArr_length |].
  exact (UpdateConfig_never_panics Example.Cipher Example.mmdb_Country Example.url_Parse
           Example.PickCipher Example.trimArr Example.NewDomainSuffix
           Example.NewDomainKeyword Example.NewIPCIDR Example.NewFinal Example.NewURLTest
           Example.trimArr_length (inl config_odd) Example.tunnel).
Defined.

(** ** Package [proxy/http]: [parseHttpAddr] *)

Section ParseHttpAddr.

(** [C.TCP], and the library functions [net.SplitHostPort] (host, port and
    error), [net.ResolveIPAddr("ip", host)] and [net.ParseIP] (nil is
    [None]). *)
Variable C_TCP : Z.
Variable SplitHostPort : string → string * string * option string.
Variable ResolveIPAddr : string → net.IP + string.
Variable ParseIP : string → option net.IP.

(** [parseHttpAddr]: the error of [SplitHostPort] is dropped; the IP is
    the resolved one, nil when the resolution fails; the type is read off
    the host as a literal. *)
Definition parseHttpAddr (target : string) : Addr :=
  let '(host, port, _) := SplitHostPort target in
  let resolveIP :=
    match ResolveIPAddr host with
    | inl ip => Some ip
    | inr _ => None
    end in
  let addType :=
    match ParseIP host with
    | None => socks.AtypDomainName
    | Some ip =>
      match net.To4 ip with
      | None => socks.AtypIPv6
      | Some _ => socks.AtypIPv4
      end
    end in
  {| NetWork := C_TCP; AddrType := addType; Host := host; IP := resolveIP; Port := port |}.

(** X17.  The address [parseHttpAddr] builds has one of the three SOCKS types,
    and the domain type exactly when its host is not an IP literal. *)
Theorem parseHttpAddr_AddrType (target : string) :
  let addr := parseHttpAddr target in
  (AddrType addr = socks.AtypIPv4 ∨ AddrType addr = socks.AtypDomainName
   ∨ AddrType addr = socks.AtypIPv6)
  ∧ (AddrType addr = socks.AtypDomainName ↔ ParseIP (Host addr) = None)
  ∧ (AddrType addr = socks.AtypIPv4
     ↔ ∃ ip, ParseIP (Host addr) = Some ip ∧ is_Some (net.To4 ip)).
Proof.
  unfold parseHttpAddr. destruct (SplitHostPort target) as [[host port] err]. simpl.
  destruct (ParseIP host) as [ip |]; [destruct (net.To4 ip) as [ip4 |] eqn:H4 |].
  - split; [by left |]. split; [done |]. split; [| done].
    intros _. exists ip. by rewrite H4.
  - split; [by right; right |]. split; [done |]. split; [done |].
    intros (ip' & [= <-] & [? Hs]). by rewrite H4 in Hs.
  - split; [by right; left |]. split; [done |]. split; [done |].
    by intros (? & ? & _).
Qed.

(** X18.  An address built by [parseHttpAddr] is one [serializesSocksAddr] takes
    (so that its header reads back, port permitting) when the host is a
    name of at most 255 bytes, or a literal that the resolver gives back
    as the 16 bytes [net.ParseIP] makes of it. *)
Theorem parseHttpAddr_socks_address (target : string) :
  (ParseIP (Host (parseHttpAddr target)) = None
   ∧ (String.length (Host (parseHttpAddr target)) ≤ 255)%nat)
  ∨ (∃ ip, ParseIP (Host (parseHttpAddr target)) = Some ip
           ∧ ResolveIPAddr (Host (parseHttpAddr target)) = inl ip
           ∧ length ip = 16%nat) →
  socks_address (parseHttpAddr target).
Proof.
  unfold parseHttpAddr. destruct (SplitHostPort target) as [[host port] err]. simpl.
  intros [[Hname Hlen] | (ip & Hlit & Hres & Hlen)]; unfold socks_address; simpl.
  - rewrite Hname. by left.
  - rewrite Hlit, Hres. right.
    destruct (net.To4 ip) as [ip4 |] eqn:H4.
    + left. split; [done |]. exists ip. by rewrite H4.
    + right. split; [done |]. exists ip. split; [done |].
      unfold net.To16, net.IPv4len, net.IPv6len. rewrite Hlen. by eexists.
Qed.

(** X19.  A host that does not resolve gives an address without IP, which no
    GEOIP rule matches, whatever the reader holds. *)
Theorem parseHttpAddr_unresolved_host (target e : string) :
  ResolveIPAddr (Host (parseHttpAddr target)) = inr e →
  IP (parseHttpAddr target) = None
  ∧ ∀ reader g, GEOIP_IsMatch reader g (parseHttpAddr target) = Returned false.
Proof.
  unfold parseHttpAddr. destruct (SplitHostPort target) as [[host port] err]. simpl.
  intros Hres. unfold GEOIP_IsMatch. simpl. by rewrite Hres.
Qed.

(** X20.  A target that [net.SplitHostPort] refuses is not refused: the error is
    dropped and, the empty string being no IP literal, the address is a
    domain name with an empty host and an empty port, whose header is the
    empty name with port 0. *)
Theorem parseHttpAddr_malformed_target (target e : string) :
  SplitHostPort target = ("", "", Some e) →
  ParseIP "" = None →
  AddrType (parseHttpAddr target) = socks.AtypDomainName
  ∧ Host (parseHttpAddr target) = ""
  ∧ Port (parseHttpAddr target) = ""
  ∧ serializesSocksAddr (parseHttpAddr target) = Returned [3; 0; 0; 0].
Proof.
  intros Hsplit Hno. unfold parseHttpAddr. rewrite Hsplit, Hno. by repeat split.
Qed.

End ParseHttpAddr.

(** Instances: a splitter at the last colon, a parser that knows two
    literals and a resolver that knows these and one name. *)
Definition Example_SplitHostPort (target : string) : string * string * option string :=
  match reverse (strings.Split target ":") with
  | port :: (_ :: _) as rhost => (String.concat ":" (reverse rhost), port, None)
  | _ => ("", "", Some "missing port in address")
  end.

Definition Example_ParseIP (host : string) : option net.IP :=
  if String.eqb host "8.8.8.8" then Some (net.v4InV6Prefix ++ [8; 8; 8; 8])
  else if String.eqb host "::1" then Some [0; 0; 0; 0; 0; 0; 0; 0; 0; 0; 0; 0; 0; 0; 0; 1]
  else None.

Definition Example_ResolveIPAddr (host : string) : net.IP + string :=
  match Example_ParseIP host with
  | Some ip => inl ip
  | None =>
    if String.eqb host "dns.google" then inl [8; 8; 4; 4]
    else inr "no such host"
  end.

Lemma parseHttpAddr_socks_address_witness :
  let addr := parseHttpAddr 0 Example_SplitHostPort Example_ResolveIPAddr Example_ParseIP
                "8.8.8.8:53" in
  addr = mkAddr 0 socks.AtypIPv4 "8.8.8.8" (Some (net.v4InV6Prefix ++ [8; 8; 8; 8])) "53"
  ∧ (∃ ip, Example_ParseIP (Host addr) = Some ip
           ∧ Example_ResolveIPAddr (Host addr) = inl ip
           ∧ length ip = 16%nat)
  ∧ socks_address addr.
Proof.
  intros addr.
  assert (H0 : addr = mkAddr 0 socks.AtypIPv4 "8.8.8.8"
                        (Some (net.v4InV6Prefix ++ [8; 8; 8; 8])) "53") by reflexivity.
  assert (H : ∃ ip, Example_ParseIP (Host addr) = Some ip
                    ∧ Example_ResolveIPAddr (Host addr) = inl ip
                    ∧ length ip = 16%nat).
  { eexists. repeat split; reflexivity. }
  repeat (split; [assumption |]).
  exact (parseHttpAddr_socks_address 0 Example_SplitHostPort Example_ResolveIPAddr
           Example_ParseIP "8.8.8.8:53" (or_intror H)).
Defined.

Lemma parseHttpAddr_unresolved_host_witness :
  let addr := parseHttpAddr 0 Example_SplitHostPort Example_ResolveIPAddr Example_ParseIP
                "nowhere.invalid:443" in
  Example_ResolveIPAddr (Host addr) = inr "no such host"
  ∧ IP addr = None
  ∧ GEOIP_IsMatch Example.mmdb_Country (mkGEOIP "" "Proxy") addr = Returned false.
Proof.
  intros addr.
  assert (H : Example_ResolveIPAddr (Host addr) = inr "no such host") by reflexivity.
  split; [exact H |].
  destruct (parseHttpAddr_unresolved_host 0 Example_SplitHostPort Example_ResolveIPAddr
              Example_ParseIP "nowhere.invalid:443" _ H) as [Hip Hgeo].
  split; [exact Hip | apply Hgeo].
Defined.

Lemma parseHttpAddr_malformed_target_witness :
  let addr := parseHttpAddr 0 Example_SplitHostPort Example_ResolveIPAddr Example_ParseIP
                "example.com" in
  Example_SplitHostPort "example.com" = ("", "", Some "missing port in address")
  ∧ Example_ParseIP "" = None
  ∧ AddrType addr = socks.AtypDomainName
  ∧ Host addr = ""
  ∧ Port addr = ""
  ∧ serializesSocksAddr addr = Returned [3; 0; 0; 0].
Proof.
  intros addr.
  assert (H1 : Example_SplitHostPort "example.com"
               = ("", "", Some "missing port in address")) by reflexivity.
  assert (H2 : Example_ParseIP "" = None) by reflexivity.
  repeat (split; [assumption |]).
  exact (parseHttpAddr_malformed_target 0 Example_SplitHostPort Example_ResolveIPAddr
           Example_ParseIP "example.com" _ H1 H2).
Defined.

(** ** Package [proxy/http]: the target of [handleHTTP] *)

(** The address [handleHTTP] hands to [NewHttp]: the [Host] of the
    request, with the default port when it has no colon. *)
Definition handleHTTP_addr (host : string) : string :=
  if negb (strings.Contains host ":") then host +:+ ":80" else host.

Lemma substring_after (a b : string) (n : nat) :
  String.substring (String.length a) n (a +:+ b) = String.substring 0 n b.
Proof. induction a as [| c a IH]; simpl; [done | exact IH]. Qed.

(** X21.  The address [handleHTTP] passes on always has a colon, and it is the
    host itself whenever the host has one, be it the colon of a port or
    one of an IPv6 literal without port; so padding is done at most
    once. *)
Theorem handleHTTP_addr_has_colon (host : string) :
  strings.Contains (handleHTTP_addr host) ":" = true
  ∧ (strings.Contains host ":" = true → handleHTTP_addr host = host)
  ∧ handleHTTP_addr (handleHTTP_addr host) = handleHTTP_addr host.
Proof.
  assert (Hpad : strings.Contains (handleHTTP_addr host) ":" = true).
  { unfold handleHTTP_addr. destruct (strings.Contains host ":") eqn:Hc; simpl; [done |].
    destruct (strings.Contains (host +:+ ":80") ":") eqn:Hc'; [done |].
    exfalso. unfold strings.Contains in Hc'. apply bool_decide_eq_false in Hc'.
    apply Hc'.
    destruct (String.index 0 ":" (host +:+ ":80")) as [m |] eqn:Hi; [by eexists |].
    exfalso.
    apply (String.index_correct3 0 (String.length host) _ _ Hi); [done | lia |].
    by rewrite substring_after. }
  split; [exact Hpad |]. split.
  - intros Hc. unfold handleHTTP_addr. by rewrite Hc.
  - unfold handleHTTP_addr at 1. by rewrite Hpad.
Qed.

Example handleHTTP_addr_examples :
  handleHTTP_addr "example.com" = "example.com:80"
  ∧ handleHTTP_addr "example.com:8080" = "example.com:8080"
  ∧ handleHTTP_addr "[::1]" = "[::1]".
Proof. repeat split. Qed.

(** ** Package [observable]: sequences of calls *)

Module observable_runs.

Import observable.

(** A call on an observable. *)
Inductive Op :=
| Op_Subscribe
| Op_UnSubscribe (sub : Subscription)
| Op_close.

Definition step (o : Observable) (op : Op) : Observable :=
  match op with
  | Op_Subscribe => (Subscribe o).2
  | Op_UnSubscribe sub => UnSubscribe sub o
  | Op_close => close o
  end.

(** The calls of [ops], one after the other. *)
Definition run (ops : list Op) (o : Observable) : Observable := foldl step o ops.

Lemma reachable_step o op : reachable o → reachable (step o op).
Proof. destruct op; simpl; by constructor. Qed.

Lemma reachable_run ops o : reachable o → reachable (run ops o).
Proof.
  revert o. induction ops as [| op ops IH]; intros o Hr; [done |].
  apply IH, reachable_step, Hr.
Qed.

Lemma made_step o op : (made o ≤ made (step o op))%nat.
Proof.
  destruct op; simpl.
  - unfold Subscribe. destruct (done o); simpl; lia.
  - unfold UnSubscribe. by destruct (listener o !! sub).
  - done.
Qed.

Lemma made_run ops o : (made o ≤ made (run ops o))%nat.
Proof.
  revert o. induction ops as [| op ops IH]; intros o; [done |].
  simpl. pose proof (made_step o op). pose proof (IH (step o op)). unfold run in *. lia.
Qed.

(** X22.  [close] closes the channels of the subscribers of the listener
    map and no other channel, sets [done], and leaves the listener map as
    it is. *)
Theorem close_closes_all (o : Observable) :
  reachable o →
  closed (close o) = closed o ∪ dom (listener o)
  ∧ listener (close o) = listener o
  ∧ done (close o) = true.
Proof.
  intros [Hk _ _]%reachable_wf. split; [| done].
  simpl. f_equal. apply set_eq. intros sub.
  rewrite elem_of_list_to_set, list_elem_of_fmap, elem_of_dom. split.
  - intros (s & -> & Hin). apply list_elem_of_fmap in Hin as ([k s'] & -> & Hin).
    apply elem_of_map_to_list in Hin. simpl.
    exists s'. by rewrite <- (Hk _ _ Hin) in Hin.
  - intros [s Hs]. exists s. split; [symmetry; apply (Hk _ _ Hs) |].
    apply list_elem_of_fmap. exists (sub, s).
    split; [done | by apply elem_of_map_to_list].
Qed.

(** X23.  A subscription taken and given back leaves the listener map as it
    was; its channel ends up closed. *)
Theorem Subscribe_then_UnSubscribe (o o' : Observable) (sub : Subscription) :
  reachable o →
  Subscribe o = (Some sub, None, o') →
  listener (UnSubscribe sub o') = listener o
  ∧ closed (UnSubscribe sub o') = closed o ∪ {[sub]}
  ∧ done (UnSubscribe sub o') = done o.
Proof.
  intros [_ Hm _]%reachable_wf. unfold Subscribe.
  destruct (done o) eqn:Hd; [done |]. simpl. intros [= <- <-].
  unfold UnSubscribe, Out. simpl. rewrite lookup_insert_eq. simpl.
  split; [| done].
  apply delete_insert_id.
  destruct (listener o !! made o) as [s |] eqn:Hs; [| done].
  apply Hm in Hs. lia.
Qed.

(** X24.  Unsubscribing a second time changes neither the listener map nor the
    closed channels: no channel is closed twice. *)
Theorem UnSubscribe_twice (o : Observable) (sub : Subscription) :
  reachable o →
  listener (UnSubscribe sub (UnSubscribe sub o)) = listener (UnSubscribe sub o)
  ∧ closed (UnSubscribe sub (UnSubscribe sub o)) = closed (UnSubscribe sub o)
  ∧ listener (UnSubscribe sub o) !! sub = None.
Proof.
  intros [Hk _ _]%reachable_wf.
  assert (Hgone : listener (UnSubscribe sub o) !! sub = None).
  { unfold UnSubscribe. destruct (listener o !! sub) as [s |] eqn:Hs; simpl; [| done].
    rewrite (Hk _ _ Hs). apply lookup_delete_eq. }
  split; [| split; [| done]]; unfold UnSubscribe at 1; by rewrite Hgone.
Qed.

(** X25.  In every state that whole calls of [Subscribe], [UnSubscribe] and
    [close] lead to from a new observable, as long as the observable is
    not done, no subscriber of the listener map has its channel closed.
    (A statement about the states between calls; what a concurrent
    [process] sees during a call is outside it.) *)
Theorem listeners_open_until_done (o : Observable) (sub : Subscription) :
  reachable o →
  done o = false →
  is_Some (listener o !! sub) →
  sub ∉ closed o.
Proof.
  intros Hr. revert sub. induction Hr as [| o Hr IH | sub' o Hr IH | o Hr IH]; intros sub.
  - intros _ [s Hs]. simpl in Hs. by rewrite lookup_empty in Hs.
  - pose proof (reachable_wf _ Hr) as [_ Hm Hc].
    unfold Subscribe. destruct (done o) eqn:Hd; simpl; [intros; congruence |].
    intros _ [s Hs]. unfold Out in Hs. simpl in Hs.
    apply lookup_insert_Some in Hs as [[<- _] | [Hne Hs]].
    + intros Hin%Hc. lia.
    + by apply IH.
  - pose proof (reachable_wf _ Hr) as [Hk _ _].
    unfold UnSubscribe. destruct (listener o !! sub') as [s' |] eqn:Hs'; simpl.
    + intros Hd [s Hs]. rewrite (Hk _ _ Hs') in Hs.
      apply lookup_delete_Some in Hs as [Hne Hs].
      intros [Hin | Heq%elem_of_singleton]%elem_of_union.
      * by apply (IH sub).
      * apply Hne. rewrite <- (Hk _ _ Hs'). done.
    + intros Hd Hs. by apply IH.
  - done.
Qed.

Lemma done_step o op : done o = true → done (step o op) = true.
Proof.
  intros Hd. destruct op; simpl.
  - unfold Subscribe. by rewrite Hd.
  - unfold UnSubscribe. by destruct (listener o !! sub).
  - done.
Qed.

Lemma closed_step o op : closed o ⊆ closed (step o op).
Proof.
  destruct op; simpl.
  - unfold Subscribe. by destruct (done o).
  - unfold UnSubscribe. destruct (listener o !! sub); simpl; [| done].
    apply union_subseteq_l.
  - apply union_subseteq_l.
Qed.

Lemma listener_step_done o op :
  done o = true → listener (step o op) ⊆ listener o.
Proof.
  intros Hd. destruct op; simpl.
  - unfold Subscribe. by rewrite Hd.
  - unfold UnSubscribe. destruct (listener o !! sub); simpl; [| done].
    apply delete_subseteq.
  - done.
Qed.

(** X26.  Once the observable is done it stays done, and whatever is called on
    it afterwards, no subscriber is added and no channel is reopened. *)
Theorem done_is_final (o : Observable) (ops : list Op) :
  done o = true →
  done (run ops o) = true
  ∧ listener (run ops o) ⊆ listener o
  ∧ closed o ⊆ closed (run ops o).
Proof.
  revert o. induction ops as [| op ops IH]; intros o Hd; [done |].
  destruct (IH (step o op) (done_step o op Hd)) as (Hd' & Hl & Hc).
  split; [exact Hd' |]. split.
  - etrans; [exact Hl | by apply listener_step_done].
  - etrans; [apply (closed_step o op) | exact Hc].
Qed.

(** X27.  A subscription is never handed out twice: whatever is called between
    two successful calls of [Subscribe], the second subscription is
    another one than the first. *)
Theorem subscriptions_are_distinct
    (o o1 o2 : Observable) (ops : list Op) (sub1 sub2 : Subscription) :
  Subscribe o = (Some sub1, None, o1) →
  Subscribe (run ops o1) = (Some sub2, None, o2) →
  (sub1 < sub2)%nat.
Proof.
  unfold Subscribe at 1. destruct (done o); [done |]. simpl. intros [= <- <-].
  unfold Subscribe. destruct (done (run ops _)); [done |]. simpl. intros [= <- _].
  unfold Out. simpl.
  match goal with |- (_ < made (run ops ?x))%nat => pose proof (made_run ops x) as H end.
  simpl in H. lia.
Qed.

End observable_runs.

Lemma close_closes_all_witness :
  let o := (observable.Subscribe (observable.Subscribe observable.NewObservable).2).2 in
  observable.reachable o
  ∧ observable.closed (observable.close o)
    = observable.closed o ∪ dom (observable.listener o)
  ∧ observable.listener (observable.close o) = observable.listener o
  ∧ observable.done (observable.close o) = true.
Proof.
  intros o.
  assert (Hr : observable.reachable o) by (repeat constructor).
  split; [exact Hr |].
  exact (observable_runs.close_closes_all o Hr).
Defined.

Lemma Subscribe_then_UnSubscribe_witness :
  let o := (observable.Subscribe observable.NewObservable).2 in
  let o' := (observable.Subscribe o).2 in
  observable.reachable o
  ∧ observable.Subscribe o = (Some 1%nat, None, o')
  ∧ observable.listener (observable.UnSubscribe 1%nat o') = observable.listener o
  ∧ observable.closed (observable.UnSubscribe 1%nat o') = observable.closed o ∪ {[1%nat]}
  ∧ observable.done (observable.UnSubscribe 1%nat o') = observable.done o.
Proof.
  intros o o'.
  assert (Hr : observable.reachable o) by (repeat constructor).
  assert (Hs : observable.Subscribe o = (Some 1%nat, None, o')) by reflexivity.
  repeat (split; [assumption |]).
  exact (observable_runs.Subscribe_then_UnSubscribe o o' 1%nat Hr Hs).
Defined.

Lemma UnSubscribe_twice_witness :
  let o := (observable.Subscribe observable.NewObservable).2 in
  observable.reachable o
  ∧ observable.listener (observable.UnSubscribe 0%nat (observable.UnSubscribe 0%nat o))
    = observable.listener (observable.UnSubscribe 0%nat o)
  ∧ observable.closed (observable.UnSubscribe 0%nat (observable.UnSubscribe 0%nat o))
    = observable.closed (observable.UnSubscribe 0%nat o)
  ∧ observable.listener (observable.UnSubscribe 0%nat o) !! 0%nat = None.
Proof.
  intros o.
  assert (Hr : observable.reachable o) by (repeat constructor).
  split; [exact Hr |].
  exact (observable_runs.UnSubscribe_twice o 0%nat Hr).
Defined.

Lemma listeners_open_until_done_witness :
  let o := observable.UnSubscribe 0%nat
             (observable.Subscribe (observable.Subscribe observable.NewObservable).2).2 in
  observable.reachable o
  ∧ observable.done o = false
  ∧ is_Some (observable.listener o !! 1%nat)
  ∧ 1%nat ∉ observable.closed o.
Proof.
  intros o.
  assert (Hr : observable.reachable o) by (repeat constructor).
  assert (Hd : observable.done o = false) by reflexivity.
  assert (Hs : is_Some (observable.listener o !! 1%nat)) by (by eexists).
  repeat (split; [assumption |]).
  exact (observable_runs.listeners_open_until_done o 1%nat Hr Hd Hs).
Defined.

Lemma done_is_final_witness :
  let o := observable.close (observable.Subscribe observable.NewObservable).2 in
  let ops := [observable_runs.Op_Subscribe; observable_runs.Op_UnSubscribe 0%nat;
              observable_runs.Op_Subscribe] in
  observable.done o = true
  ∧ observable.done (observable_runs.run ops o) = true
  ∧ observable.listener (observable_runs.run ops o) ⊆ observable.listener o
  ∧ observable.closed o ⊆ observable.closed (observable_runs.run ops o).
Proof.
  intros o ops.
  assert (Hd : observable.done o = true) by reflexivity.
  split; [exact Hd |].
  exact (observable_runs.done_is_final o ops Hd).
Defined.

Lemma subscriptions_are_distinct_witness :
  let o := observable.NewObservable in
  let o1 := (observable.Subscribe o).2 in
  let ops := [observable_runs.Op_UnSubscribe 0%nat] in
  let o2 := (observable.Subscribe (observable_runs.run ops o1)).2 in
  observable.Subscribe o = (Some 0%nat, None, o1)
  ∧ observable.Subscribe (observable_runs.run ops o1) = (Some 1%nat, None, o2)
  ∧ (0 < 1)%nat.
Proof.
  intros o o1 ops o2.
  assert (H1 : observable.Subscribe o = (Some 0%nat, None, o1)) by reflexivity.
  assert (H2 : observable.Subscribe (observable_runs.run ops o1) = (Some 1%nat, None, o2))
    by reflexivity.
  repeat (split; [assumption |]).
  exact (observable_runs.subscriptions_are_distinct o o1 o2 ops 0%nat 1%nat H1 H2).
Defined.
